(** * Minesweeper knowledge-base engine: a shallow embedding of
      [minesweeper.py] (classes [Sentence] and [MinesweeperAI]).

    Python sets of cells are finite sets [gset Cell]; iterating over a set
    walks [elements].  Python fixes no order for that walk: the loops that
    mark or discard the cells of a set are shown to give the same state in
    any order, and [make_safe_move], whose result does depend on it, is
    specified for whatever order there is.  The knowledge base is a Python
    list of [Sentence] objects, each owning its own cell set (every set that
    is stored or iterated is a copy), so it is a [list] of values.  An
    operation that can raise returns [option]: [None] is a raised exception,
    [Some v] a normal return of [v]. *)

From stdpp Require Import base option list sets gmap.
From Stdlib Require Import ZArith Lia.

Set Warnings "-clear-no-such-hyp".

Local Open Scope Z_scope.

(** A board cell [(i, j)]: a tuple of two Python integers. *)
Abbreviation Cell := (Z * Z)%type.

(** [range(a, a + 3)], the bounds of the loops over a cell's surroundings:
    [range(cell[0] - 1, cell[0] + 2)] is [range3 (cell.1 - 1)]. *)
Definition range3 (a : Z) : list Z := [a; a + 1; a + 2].

(** ** class Minesweeper *)
Module Minesweeper.

(** The game board.  The constructor sets [self.board[i][j] = True] together
    with [self.mines.add((i, j))] and nothing changes either afterwards, so
    for a cell inside the grid [self.board[i][j]] is read off [self.mines]. *)
Record t : Type := Build { height : Z; width : Z; mines : gset Cell }.

Definition board (g : t) (cell : Cell) : bool := bool_decide (cell ∈ mines g).

(** One iteration of the two loops of [nearby_mines], at [(i, j)]. *)
Definition nearby_step (g : t) (cell : Cell) (count : Z) (ij : Cell) : Z :=
  if decide (ij = cell) then count
  else if decide (0 ≤ ij.1 < height g ∧ 0 ≤ ij.2 < width g) then
    if board g ij then count + 1 else count
  else count.

Definition nearby_mines (g : t) (cell : Cell) : Z :=
  fold_left (nearby_step g cell)
            (i ← range3 (cell.1 - 1); j ← range3 (cell.2 - 1); [(i, j)]) 0.

End Minesweeper.

(** ** class Minesweeper, with the board as the list of rows it is *)
Module Game.

(** Result of code that may raise or, in a loop fed by random draws, may
    still be running when the draws at hand are used up. *)
Inductive outcome (A : Type) : Type :=
| Returned (a : A)
| Raised
| Looping.
Arguments Returned {A} a.
Arguments Raised {A}.
Arguments Looping {A}.

(** The position Python reads for [l[i]] in a list of length [len]:
    negative indices count from the end, [None] is [IndexError]. *)
Definition py_index (len : nat) (i : Z) : option nat :=
  if decide (0 ≤ i < Z.of_nat len) then Some (Z.to_nat i)
  else if decide (- Z.of_nat len ≤ i < 0) then Some (Z.to_nat (Z.of_nat len + i))
  else None.

(** [l[i]] and [l[i] = x]. *)
Definition getitem {A : Type} (l : list A) (i : Z) : option A :=
  k ← py_index (length l) i; l !! k.

Definition setitem {A : Type} (l : list A) (i : Z) (x : A) : option (list A) :=
  k ← py_index (length l) i; Some (<[k := x]> l).

Record t : Type := Build {
  height : Z;
  width : Z;
  mines : gset Cell;
  board : list (list bool);
  mines_found : gset Cell
}.

(** [board[i][j]] *)
Definition getcell (b : list (list bool)) (cell : Cell) : option bool :=
  row ← getitem b cell.1; getitem row cell.2.

(** [board[i][j] = True]: the row object is changed in place; every row is
    an object of its own. *)
Definition setcell (b : list (list bool)) (cell : Cell) : option (list (list bool)) :=
  row ← getitem b cell.1;
  row' ← setitem row cell.2 true;
  setitem b cell.1 row'.

(** The field of [False] the constructor builds first: [range(height)] rows
    of [range(width)] entries. *)
Definition empty_board (h w : Z) : list (list bool) :=
  replicate (Z.to_nat h) (replicate (Z.to_nat w) false).

(** One turn of the [while] loop of the constructor, with the drawn pair
    [(i, j)]: [None] is [IndexError]. *)
Definition place_mine (st : list (list bool) * gset Cell) (ij : Cell)
  : option (list (list bool) * gset Cell) :=
  v ← getcell st.1 ij;
  if v : bool then Some st
  else (b ← setcell st.1 ij; Some (b, st.2 ∪ {[ij]})).

(** The loop [while len(self.mines) != mines], fed with the pairs that
    [random.randrange(height)] and [random.randrange(width)] draw, in
    order.  Each turn starts with the two calls of [randrange], which raise
    [ValueError] on an empty range, whatever pairs are at hand; with both
    ranges non-empty the turn takes the next pair. *)
Fixpoint place_mines (h w target : Z) (ds : list Cell)
    (st : list (list bool) * gset Cell)
  : outcome (list (list bool) * gset Cell) :=
  if decide (Z.of_nat (size st.2) = target) then Returned st
  else if decide (0 < h ∧ 0 < w) then
    match ds with
    | [] => Looping
    | ij :: ds' =>
        match place_mine st ij with
        | Some st' => place_mines h w target ds' st'
        | None => Raised
        end
    end
  else Raised.

(** [Minesweeper(height, width, mines)] *)
Definition init (h w target : Z) (ds : list Cell) : outcome t :=
  match place_mines h w target ds (empty_board h w, ∅) with
  | Returned st =>
      Returned {| height := h; width := w; mines := st.2; board := st.1;
                  mines_found := ∅ |}
  | Raised => Raised
  | Looping => Looping
  end.

Definition is_mine (g : t) (cell : Cell) : option bool := getcell (board g) cell.

(** One iteration of the two loops of [nearby_mines], at [(i, j)]. *)
Definition nearby_step (g : t) (cell : Cell) (acc : option Z) (ij : Cell)
  : option Z :=
  count ← acc;
  if decide (ij = cell) then Some count
  else if decide (0 ≤ ij.1 < height g ∧ 0 ≤ ij.2 < width g) then
    v ← getcell (board g) ij;
    Some (if v : bool then count + 1 else count)
  else Some count.

Definition nearby_mines (g : t) (cell : Cell) : option Z :=
  fold_left (nearby_step g cell)
            (i ← range3 (cell.1 - 1); j ← range3 (cell.2 - 1); [(i, j)])
            (Some 0).

Definition won (g : t) : bool := bool_decide (mines_found g = mines g).

End Game.

(** ** class Sentence *)
Module Sentence.

Record t : Type := Build { cells : gset Cell; count : Z }.

#[global] Instance eq_dec : EqDecision t.
Proof. solve_decision. Defined.

(** [Sentence(cells, count)] with [cells] a list: [self.cells = set(cells)]. *)
Definition init (cs : list Cell) (n : Z) : t :=
  {| cells := list_to_set cs; count := n |}.

(** [len(self.cells)] *)
Definition len (s : t) : Z := Z.of_nat (size (cells s)).

Definition known_mines (s : t) : gset Cell :=
  if decide (len s = count s) then cells s else ∅.

Definition known_safes (s : t) : gset Cell :=
  if decide (count s = 0) then cells s else ∅.

(** The loop over [clone] stops at the first [cell0 == cell]; then the cell
    is discarded and the count decremented. *)
Definition mark_mine (cell : Cell) (s : t) : t :=
  match List.find (fun cell0 => bool_decide (cell0 = cell)) (elements (cells s)) with
  | Some _ => {| cells := cells s ∖ {[cell]}; count := count s - 1 |}
  | None => s
  end.

Definition mark_safe (cell : Cell) (s : t) : t :=
  {| cells := cells s ∖ {[cell]}; count := count s |}.

End Sentence.

Abbreviation Sentence := Sentence.t.

(** ** class MinesweeperAI *)
Module MinesweeperAI.

Record t : Type := Build {
  height : Z;
  width : Z;
  moves_made : gset Cell;
  mines : gset Cell;
  safes : gset Cell;
  knowledge : list Sentence
}.

(** [MinesweeperAI(height, width)] *)
Definition init (h w : Z) : t :=
  {| height := h; width := w; moves_made := ∅; mines := ∅; safes := ∅;
     knowledge := [] |}.

Definition set_knowledge (kb : list Sentence) (ai : t) : t :=
  {| height := height ai; width := width ai; moves_made := moves_made ai;
     mines := mines ai; safes := safes ai; knowledge := kb |}.

Definition set_safes (ss : gset Cell) (ai : t) : t :=
  {| height := height ai; width := width ai; moves_made := moves_made ai;
     mines := mines ai; safes := ss; knowledge := knowledge ai |}.

Definition set_mines (ms : gset Cell) (ai : t) : t :=
  {| height := height ai; width := width ai; moves_made := moves_made ai;
     mines := ms; safes := safes ai; knowledge := knowledge ai |}.

Definition set_moves_made (mv : gset Cell) (ai : t) : t :=
  {| height := height ai; width := width ai; moves_made := mv;
     mines := mines ai; safes := safes ai; knowledge := knowledge ai |}.

(** [for sentence in self.knowledge: sentence.mark_mine(cell)] *)
Definition mark_mine (cell : Cell) (ai : t) : t :=
  set_knowledge (Sentence.mark_mine cell <$> knowledge ai) ai.

Definition mark_safe (cell : Cell) (ai : t) : t :=
  set_knowledge (Sentence.mark_safe cell <$> knowledge ai) ai.

Definition neighbors (ai : t) (cell : Cell) : list Cell :=
  i ← range3 (cell.1 - 1);
  j ← range3 (cell.2 - 1);
  if decide ((i, j) = cell) then []
  else if decide (0 ≤ i < height ai ∧ 0 ≤ j < width ai) then [(i, j)]
  else [].

(** The neighbour filter of [add_knowledge]: one iteration of the loop over
    [self.neighbors(cell)], on the pair ([cells], [count]). *)
Definition filter_neighbor (ai : t) (acc : list Cell * Z) (cell1 : Cell)
  : list Cell * Z :=
  if decide (cell1 ∈ mines ai) then (acc.1, acc.2 - 1)
  else if decide (cell1 ∈ safes ai ∨ cell1 ∈ moves_made ai) then acc
  else (acc.1 ++ [cell1], acc.2).

(** Building and appending the new sentence of [add_knowledge]. *)
Definition add_new_sentence (cell : Cell) (count : Z) (ai : t) : t :=
  let '(cells, count) := fold_left (filter_neighbor ai) (neighbors ai cell) ([], count) in
  if decide (cells ≠ []) then
    let new_sentence := Sentence.init cells count in
    if decide (new_sentence ∈ knowledge ai) then ai
    else set_knowledge (knowledge ai ++ [Sentence.init cells count]) ai
  else ai.

(** The two inner loops of [mark_mines_safes]. *)
Definition mark_cells_mine (cs : list Cell) (ai : t) : t :=
  fold_left (fun ai cell =>
               let ai := mark_mine cell ai in
               set_mines (mines ai ∪ {[cell]}) ai) cs ai.

Definition mark_cells_safe (cs : list Cell) (ai : t) : t :=
  fold_left (fun ai cell =>
               if decide (cell ∉ moves_made ai) then
                 let ai := mark_safe cell ai in
                 set_safes (safes ai ∪ {[cell]}) ai
               else ai) cs ai.

(** One iteration of [for sentence in self.knowledge] in [mark_mines_safes],
    at list position [i]: the sentence is read in its current state, the
    sentences are changed in place and the list keeps its length. *)
Definition mark_mines_safes_at (ai : t) (i : nat) : t :=
  match knowledge ai !! i with
  | None => ai
  | Some sentence =>
      let mines_of_sentence := Sentence.known_mines sentence in
      let safes_of_sentence := Sentence.known_safes sentence in
      let ai :=
        if decide (size mines_of_sentence ≠ 0%nat)
        then mark_cells_mine (elements mines_of_sentence) ai else ai in
      if decide (size safes_of_sentence ≠ 0%nat)
      then mark_cells_safe (elements safes_of_sentence) ai else ai
  end.

Definition mark_mines_safes (ai : t) : t :=
  fold_left mark_mines_safes_at (seq 0 (length (knowledge ai))) ai.

(** [list.remove(x)]: deletes the first element equal to [x]; [ValueError]
    when there is none. *)
Fixpoint list_remove (x : Sentence) (l : list Sentence) : option (list Sentence) :=
  match l with
  | [] => None
  | y :: l' => if decide (y = x) then Some l' else (y ::.) <$> list_remove x l'
  end.

Definition clean_empty_sentences (ai : t) : option t :=
  let clone := knowledge ai in
  kb ← foldl (fun kb sentence =>
                kb ← kb;
                if decide (Sentence.cells sentence = ∅)
                then list_remove sentence kb else Some kb)
             (Some (knowledge ai)) clone;
  Some (set_knowledge kb ai).

(** [try: self.knowledge.remove(sentence) except: pass] *)
Definition try_remove (x : Sentence) (l : list Sentence) : list Sentence :=
  default l (list_remove x l).

(** [clean_identical_sentences]: [indx] is the position after [sentence] in
    [clone]; the inner loop reads [clone[i]] for [i] in
    [range(indx, len(clone))]. *)
Definition clean_identical_at (clone : list Sentence) (kb : list Sentence)
    (p : nat * Sentence) : list Sentence :=
  let indx := S p.1 in
  fold_left (fun kb i =>
               match clone !! i with
               | Some other => if decide (p.2 = other) then try_remove p.2 kb else kb
               | None => kb
               end) (seq indx (length clone - indx)) kb.

Definition clean_identical_sentences (ai : t) : t :=
  let clone := knowledge ai in
  set_knowledge (fold_left (clean_identical_at clone) (imap pair clone) (knowledge ai)) ai.

(** [set.remove(x)]: [KeyError] when [x] is not a member. *)
Definition set_remove (x : Cell) (s : gset Cell) : option (gset Cell) :=
  if decide (x ∈ s) then Some (s ∖ {[x]}) else None.

Definition clean_exceuted_safes (ai : t) : option t :=
  let clone := safes ai in
  ss ← foldl (fun ss cell =>
                ss ← ss;
                if decide (cell ∈ moves_made ai) then set_remove cell ss else Some ss)
             (Some (safes ai)) (elements clone);
  Some (set_safes ss ai).

(** The saturation block of [add_knowledge]: [mark_mines_safes], then the
    two sentence clean-ups. *)
Definition mark_and_clean (ai : t) : option t :=
  ai ← clean_empty_sentences (mark_mines_safes ai);
  Some (clean_identical_sentences ai).

(** Loop state of the subset search: the list [sub_sentences] and the
    variable [count_subset], which is initialised once, before both loops. *)
Record infer_state : Type := InferState {
  sub_sentences : list Sentence;
  count_subset : Z
}.

(** The filter over [is_subset0], a copy of [is_subset]. *)
Definition discard_known (ai : t) (is_subset : gset Cell) : gset Cell :=
  fold_left (fun cur cell =>
               if decide (cell ∈ moves_made ai ∨ cell ∈ safes ai ∨ cell ∈ mines ai)
               then cur ∖ {[cell]} else cur)
            (elements is_subset) is_subset.

(** Body of the inner loop, for one pair ([sentence], [sentence1]) of
    [copy_knowledge].  [is_subset] starts as the empty list, which behaves
    as the empty set in the filter and in the truth test. *)
Definition infer_pair (ai : t) (sentence : Sentence) (acc : infer_state)
    (sentence1 : Sentence) : infer_state :=
  let '(is_subset, count_subset) :=
    if decide (Sentence.cells sentence ∖ Sentence.cells sentence1 = ∅)
    then (Sentence.cells sentence1 ∖ Sentence.cells sentence,
          Z.abs (Sentence.count sentence1 - Sentence.count sentence))
    else (∅, count_subset acc) in
  let is_subset := discard_known ai is_subset in
  if decide (is_subset ≠ ∅ ∧ count_subset ≠ -1) then
    let new_sentence := Sentence.Build is_subset count_subset in
    if decide (new_sentence ∉ knowledge ai)
    then InferState (sub_sentences acc ++ [new_sentence]) count_subset
    else InferState (sub_sentences acc) count_subset
  else InferState (sub_sentences acc) count_subset.

(** Both loops over [copy_knowledge]; returns [sub_sentences]. *)
Definition infer_subsets (ai : t) : list Sentence :=
  let copy_knowledge := knowledge ai in
  sub_sentences
    (fold_left (fun acc sentence => fold_left (infer_pair ai sentence) copy_knowledge acc)
               copy_knowledge (InferState [] (-1))).

Definition add_inferred (ai : t) : t :=
  set_knowledge (knowledge ai ++ infer_subsets ai) ai.

(** The state of [add_knowledge] when the subset search starts. *)
Definition before_inference (cell : Cell) (count : Z) (ai : t) : option t :=
  let ai := set_moves_made (moves_made ai ∪ {[cell]}) ai in
  let ai := mark_safe cell ai in
  let ai := add_new_sentence cell count ai in
  mark_and_clean ai.

Definition add_knowledge (cell : Cell) (count : Z) (ai : t) : option t :=
  ai ← before_inference cell count ai;
  let ai := add_inferred ai in
  ai ← mark_and_clean ai;
  clean_exceuted_safes ai.

(** [for cell in self.safes: ...; return None] *)
Definition make_safe_move (ai : t) : option Cell :=
  List.find (fun cell => bool_decide ((cell ∉ moves_made ai) ∧ (cell ∉ mines ai)))
            (elements (safes ai)).

(** [range(n)] *)
Definition range (n : Z) : list Z := Z.of_nat <$> seq 0 (Z.to_nat n).

(** [random.randrange(n)] with the drawn value [r] supplied: [ValueError]
    for an empty range. *)
Definition randrange (n : Z) (r : Z) : option Z :=
  if decide (0 < n) then Some r else None.

(** The source of randomness: what [random.randrange] draws for the row
    bound, and what it draws for the column bound while at a given row. *)
Record draws : Type := Draws { row_draw : Z; col_draw : Z → Z }.

Definition valid_draws (ai : t) (d : draws) : Prop :=
  0 ≤ row_draw d < height ai ∧ ∀ row, 0 ≤ col_draw d row < width ai.

(** The inner loop of [make_random_move] at [row]: [Some c] when it returns
    the cell [c], [None] when it runs to its end. *)
Definition scan_row (ai : t) (row : Z) (bound : Z) : option Cell :=
  List.find (fun c => bool_decide ((c ∉ mines ai) ∧ (c ∉ moves_made ai)))
            (pair row <$> range bound).

(** The outer loop over the remaining rows.  The result is [None] when
    [randrange] raises, [Some None] when Python's [None] is returned and
    [Some (Some c)] when the cell [c] is. *)
Fixpoint scan_rows (ai : t) (d : draws) (rows : list Z) : option (option Cell) :=
  match rows with
  | [] => Some None
  | row :: rows' =>
      bound ← randrange (width ai) (col_draw d row);
      (match scan_row ai row bound with
       | Some c => Some (Some c)
       | None => scan_rows ai d rows'
       end)
  end.

Definition make_random_move (ai : t) (d : draws) : option (option Cell) :=
  bound ← randrange (height ai) (row_draw d);
  scan_rows ai d (range bound).

(** A run of [add_knowledge] calls, stopping at the first exception. *)
Fixpoint run (calls : list (Cell * Z)) (ai : t) : option t :=
  match calls with
  | [] => Some ai
  | (cell, count) :: calls' => ai ← add_knowledge cell count ai; (run calls' ai)
  end.

End MinesweeperAI.

Abbreviation AI := MinesweeperAI.t.

(** * Notions used in the statements and proofs *)
Module Notions.
Import MinesweeperAI.

(** A cell the engine may still propose as safe. *)
Definition safe_candidate (ai : AI) (c : Cell) : Prop :=
  c ∈ safes ai ∧ (c ∉ moves_made ai) ∧ (c ∉ mines ai).

Definition nonempty (s : Sentence) : Prop := Sentence.cells s ≠ ∅.

#[global] Instance nonempty_dec (s : Sentence) : Decision (nonempty s).
Proof. unfold nonempty. apply _. Defined.

(** Marking a list of cells in one sentence, one after the other. *)
Definition mark_mines (cs : list Cell) (s : Sentence) : Sentence :=
  fold_left (fun s c => Sentence.mark_mine c s) cs s.

Definition mark_safes (cs : list Cell) (s : Sentence) : Sentence :=
  fold_left (fun s c => Sentence.mark_safe c s) cs s.

(** Cells that are not moves made: the ones [mark_mines_safes] marks safe. *)
Definition unmoved (ai : AI) (cs : list Cell) : list Cell :=
  filter (λ c, c ∉ moves_made ai) cs.

(** A cell whose status is open: not a known mine, not known safe, not a
    move made. *)
Definition open_cell (ai : AI) (c : Cell) : Prop :=
  (c ∉ mines ai) ∧ (c ∉ safes ai) ∧ (c ∉ moves_made ai).

#[global] Instance open_cell_dec (ai : AI) (c : Cell) : Decision (open_cell ai c).
Proof. unfold open_cell. apply _. Defined.

(** The cells that are moves made, known safe or known mines. *)
Definition known (ai : AI) : gset Cell := moves_made ai ∪ safes ai ∪ mines ai.

(** The sentence the inner loop body builds for the pair ([A], [B]), when
    it builds one. *)
Definition derived (ai : AI) (A B : Sentence) : option Sentence :=
  if decide (Sentence.cells A ⊆ Sentence.cells B) then
    let cs := (Sentence.cells B ∖ Sentence.cells A) ∖ known ai in
    if decide (cs ≠ ∅)
    then Some (Sentence.Build cs (Z.abs (Sentence.count B - Sentence.count A)))
    else None
  else None.

(** What one pair adds to [sub_sentences]. *)
Definition queued (ai : AI) (A B : Sentence) : list Sentence :=
  match derived ai A B with
  | Some s => if decide (s ∉ knowledge ai) then [s] else []
  | None => []
  end.

(** A sentence only mentions cells whose status is still open. *)
Definition fresh (ai : AI) (s : Sentence) : Prop :=
  Sentence.cells s ## known ai.

Definition consistent (ai : AI) : Prop :=
  safes ai ## mines ai ∧ Forall (fresh ai) (knowledge ai).

(** The move is recorded, and no known safe cell is lost except to
    [moves_made]. *)
Definition recorded (ai : AI) (cell : Cell) (a : AI) : Prop :=
  moves_made a = moves_made ai ∪ {[cell]}
  ∧ safes ai ∖ (moves_made ai ∪ {[cell]}) ⊆ safes a.

(** The nine cells the loops of [neighbors] and [nearby_mines] visit. *)
Definition grid3 (cell : Cell) : list Cell :=
  i ← range3 (cell.1 - 1); j ← range3 (cell.2 - 1); [(i, j)].

(** What [neighbors] appends at [ij]. *)
Definition keep_neighbor (ai : AI) (cell ij : Cell) : list Cell :=
  if decide (ij = cell) then []
  else if decide (0 ≤ ij.1 < height ai ∧ 0 ≤ ij.2 < width ai) then [ij]
  else [].

(** The count of a sentence is the number of its cells that are mines of
    the layout [M]. *)
Definition exact (M : gset Cell) (s : Sentence) : Prop :=
  Sentence.count s = Z.of_nat (size (Sentence.cells s ∩ M)).

(** The engine state agrees with the board [g]: same size, known mines are
    mines, known safes and moves made are not, and every sentence counts the
    mines among its cells. *)
Definition sound (g : Minesweeper.t) (ai : AI) : Prop :=
  height ai = Minesweeper.height g ∧ width ai = Minesweeper.width g
  ∧ consistent ai
  ∧ mines ai ⊆ Minesweeper.mines g
  ∧ safes ai ## Minesweeper.mines g
  ∧ moves_made ai ## Minesweeper.mines g
  ∧ Forall (exact (Minesweeper.mines g)) (knowledge ai).

(** Calls as the game loop makes them on the board [g]: the revealed cell is
    not a mine and the count is the board's [nearby_mines] of it. *)
Definition faithful (g : Minesweeper.t) (calls : list (Cell * Z)) : Prop :=
  Forall (λ call, (call.1 ∉ Minesweeper.mines g)
                  ∧ call.2 = Minesweeper.nearby_mines g call.1) calls.

(** The bounds a sentence's count should respect. *)
Definition bounded (s : Sentence) : Prop :=
  0 ≤ Sentence.count s ≤ Sentence.len s.

(** Closes a decidable closed goal by evaluating its decision. *)
Ltac by_evaluation :=
  match goal with
  | |- ?G => apply (bool_decide_unpack G); vm_compute; exact I
  end.

End Notions.

(** * Further notions, for the properties beyond the listed ones *)
Module MoreNotions.
Import MinesweeperAI.

(** How often the sentence [v] occurs in a knowledge base. *)
Definition occurrences (v : Sentence) (l : list Sentence) : nat :=
  length (filter (λ s, s = v) l).

(** A cell inside the board of the engine. *)
Definition in_grid (ai : AI) (c : Cell) : Prop :=
  0 ≤ c.1 < height ai ∧ 0 ≤ c.2 < width ai.

(** Every cell the engine has marked or mentions in a sentence is inside
    the board. *)
Definition gridded (ai : AI) : Prop :=
  (∀ c, c ∈ mines ai → in_grid ai c)
  ∧ (∀ c, c ∈ safes ai → in_grid ai c)
  ∧ Forall (λ s, ∀ c, c ∈ Sentence.cells s → in_grid ai c) (knowledge ai).

(** The engine right after the first revealed cell is recorded, before any
    sentence is built. *)
Definition revealed (h w : Z) (cell : Cell) : AI :=
  {| height := h; width := w; moves_made := {[cell]}; mines := ∅; safes := ∅;
     knowledge := [] |}.

(** A board of [h] rows and [w] columns that holds [True] exactly at the
    cells of [m], all of them inside the board. *)
Definition board_of (h w : Z) (b : list (list bool)) (m : gset Cell) : Prop :=
  length b = Z.to_nat h
  ∧ Forall (λ row, length row = Z.to_nat w) b
  ∧ (∀ c, c ∈ m → 0 ≤ c.1 < h ∧ 0 ≤ c.2 < w)
  ∧ (∀ c, 0 ≤ c.1 < h → 0 ≤ c.2 < w →
          Game.getcell b c = Some (bool_decide (c ∈ m))).

(** Pairs that [randrange(h)] and [randrange(w)] can draw. *)
Definition drawable (h w : Z) (ds : list Cell) : Prop :=
  Forall (λ c, 0 ≤ c.1 < h ∧ 0 ≤ c.2 < w) ds.

(** All cells of a board of [h] rows and [w] columns. *)
Definition all_cells (h w : Z) : list Cell :=
  i ← MinesweeperAI.range h; j ← MinesweeperAI.range w; [(i, j)].

(** A cell [make_random_move] passes over: a known mine or a move made. *)
Definition taken (ai : AI) (c : Cell) : Prop :=
  c ∈ mines ai ∨ c ∈ moves_made ai.

(** A cell that occurs in some sentence of a knowledge base. *)
Definition mentioned (kb : list Sentence) (c : Cell) : Prop :=
  ∃ s, s ∈ kb ∧ c ∈ Sentence.cells s.

(** What [mark_mines_safes] keeps, relative to the state [ai] it starts
    from. *)
Definition marked_from (ai a : AI) : Prop :=
  height a = height ai ∧ width a = width ai ∧ moves_made a = moves_made ai
  ∧ length (knowledge a) = length (knowledge ai)
  ∧ mines ai ⊆ mines a ∧ safes ai ⊆ safes a
  ∧ (∀ c, c ∈ mines a → c ∈ mines ai ∨ mentioned (knowledge ai) c)
  ∧ (∀ c, c ∈ safes a → c ∈ safes ai ∨ mentioned (knowledge ai) c)
  ∧ (∀ c, mentioned (knowledge a) c → mentioned (knowledge ai) c).

(** The inner loop of [clean_identical_sentences] for [sentence], over the
    sentences that follow it in [clone]. *)
Definition remove_per_match (sentence : Sentence) (rest kb : list Sentence)
  : list Sentence :=
  fold_left (fun kb other =>
               if decide (sentence = other) then try_remove sentence kb else kb)
            rest kb.

(** How many times [clean_identical_sentences] asks to remove [v] while it
    scans [l]: once per pair of positions that both hold [v]. *)
Fixpoint removals (v : Sentence) (l : list Sentence) : nat :=
  match l with
  | [] => 0
  | x :: l' => ((if decide (x = v) then occurrences v l' else 0) + removals v l')%nat
  end.

End MoreNotions.


(** * Properties of [Sentence] *)
Module SentenceFacts.
Import Sentence Notions.

Lemma find_eq_Some (cell : Cell) (l : list Cell) :
  cell ∈ l → List.find (fun cell0 => bool_decide (cell0 = cell)) l = Some cell.
Proof.
  induction l as [|a l IH]; intros Hin.
  - by apply elem_of_nil in Hin.
  - simpl. case_bool_decide as Ha; [by subst|].
    apply IH. apply elem_of_cons in Hin as [->|]; [done|assumption].
Qed.

Lemma find_eq_None (cell : Cell) (l : list Cell) :
  cell ∉ l → List.find (fun cell0 => bool_decide (cell0 = cell)) l = None.
Proof.
  induction l as [|a l IH]; intros Hin; [done|].
  simpl. apply not_elem_of_cons in Hin as [Hne Hin].
  case_bool_decide; [by subst|]. by apply IH.
Qed.

Lemma mark_mine_elem (cell : Cell) (s : t) :
  cell ∈ cells s →
  mark_mine cell s = {| cells := cells s ∖ {[cell]}; count := count s - 1 |}.
Proof.
  intros Hin. unfold mark_mine.
  by rewrite find_eq_Some by (by apply elem_of_elements).
Qed.

Lemma mark_mine_not_elem (cell : Cell) (s : t) :
  cell ∉ cells s → mark_mine cell s = s.
Proof.
  intros Hin. unfold mark_mine.
  by rewrite find_eq_None by (by rewrite elem_of_elements).
Qed.

Lemma mark_mine_cells (cell : Cell) (s : t) :
  cells (mark_mine cell s) = cells s ∖ {[cell]}.
Proof.
  destruct (decide (cell ∈ cells s)) as [Hin|Hin].
  - by rewrite mark_mine_elem.
  - rewrite mark_mine_not_elem by done. set_solver.
Qed.

Lemma mark_safe_cells (cell : Cell) (s : t) :
  cells (mark_safe cell s) = cells s ∖ {[cell]}.
Proof. done. Qed.

Lemma mark_safe_not_elem (cell : Cell) (s : t) :
  cell ∉ cells s → mark_safe cell s = s.
Proof.
  intros Hin. destruct s as [cs n]. unfold mark_safe. simpl in *.
  f_equal. set_solver.
Qed.

(** C9: marking the same cell as a mine twice leaves the sentence as one
    call does (same cells, same count), and so does marking it safe
    twice. *)
Theorem mark_twice_same (s : t) (c : Cell) :
  mark_mine c (mark_mine c s) = mark_mine c s
  ∧ mark_safe c (mark_safe c s) = mark_safe c s.
Proof.
  split.
  - apply mark_mine_not_elem. rewrite mark_mine_cells. set_solver.
  - apply mark_safe_not_elem. rewrite mark_safe_cells. set_solver.
Qed.

End SentenceFacts.

(** * The move queries *)
Module MoveFacts.
Import MinesweeperAI Notions.

Lemma make_safe_move_Some (ai : AI) (c : Cell) :
  make_safe_move ai = Some c → safe_candidate ai c.
Proof.
  unfold make_safe_move. intros H. apply find_some in H as [Hin Hc].
  apply bool_decide_eq_true in Hc as [? ?].
  split; [|done]. apply elem_of_elements. by apply list_elem_of_In.
Qed.

Lemma make_safe_move_None (ai : AI) :
  make_safe_move ai = None ↔ ¬ ∃ c, safe_candidate ai c.
Proof.
  unfold make_safe_move. split.
  - intros H [c (Hs & Hm & Hn)].
    pose proof (find_none _ _ H c) as Hc. simpl in Hc.
    rewrite bool_decide_eq_false in Hc. apply Hc; [|done].
    apply list_elem_of_In. by apply elem_of_elements.
  - intros Hno.
    destruct (List.find _ _) as [c|] eqn:E; [|done].
    exfalso. apply Hno. exists c. by apply make_safe_move_Some.
Qed.

(** C8: [make_safe_move] returns a cell of [safes] that is neither in
    [moves_made] nor in [mines] whenever there is one, every cell it
    returns is such a cell, and it returns [None] exactly when there is
    none. *)
Theorem make_safe_move_spec (ai : AI) :
  ((∃ c, safe_candidate ai c) →
     ∃ c', make_safe_move ai = Some c' ∧ safe_candidate ai c')
  ∧ (∀ c, make_safe_move ai = Some c → safe_candidate ai c)
  ∧ (make_safe_move ai = None ↔ ¬ ∃ c, safe_candidate ai c).
Proof.
  split; [|split].
  - intros Hex. destruct (make_safe_move ai) as [c'|] eqn:E.
    + exists c'. split; [done|]. by apply make_safe_move_Some.
    + by apply make_safe_move_None in E.
  - apply make_safe_move_Some.
  - apply make_safe_move_None.
Qed.

Lemma elem_of_range (n x : Z) : x ∈ range n ↔ 0 ≤ x < n.
Proof.
  unfold range. rewrite list_elem_of_fmap. split.
  - intros (k & -> & Hk). apply elem_of_seq in Hk. lia.
  - intros Hx. exists (Z.to_nat x). split; [lia|]. apply elem_of_seq. lia.
Qed.

Lemma scan_row_Some (ai : AI) (row bound : Z) (c : Cell) :
  scan_row ai row bound = Some c →
  c.1 = row ∧ 0 ≤ c.2 < bound ∧ (c ∉ mines ai) ∧ (c ∉ moves_made ai).
Proof.
  unfold scan_row. intros H. apply find_some in H as [Hin Hc].
  apply bool_decide_eq_true in Hc as [? ?].
  apply list_elem_of_In, list_elem_of_fmap in Hin as (j & -> & Hj).
  apply elem_of_range in Hj. done.
Qed.

Lemma scan_rows_returns (ai : AI) (d : draws) (rows : list Z) :
  0 < width ai → is_Some (scan_rows ai d rows).
Proof.
  intros Hw. induction rows as [|row rows IH]; simpl; [by eexists|].
  unfold randrange. rewrite decide_True by done. simpl.
  destruct (scan_row ai row _); [by eexists|done].
Qed.

Lemma scan_rows_Some (ai : AI) (d : draws) (rows : list Z) (c : Cell) :
  scan_rows ai d rows = Some (Some c) →
  c.1 ∈ rows ∧ 0 ≤ c.2 < col_draw d c.1 ∧ (c ∉ mines ai) ∧ (c ∉ moves_made ai).
Proof.
  induction rows as [|row rows IH]; simpl; [done|].
  unfold randrange. case_decide; [|done]. simpl.
  destruct (scan_row ai row _) as [c'|] eqn:E.
  - intros [= ->]. apply scan_row_Some in E as (<- & ? & ? & ?).
    split; [by left|done].
  - intros Hrec. apply IH in Hrec as (? & ? & ? & ?). split; [by right|done].
Qed.

(** C10: with height and width at least 1 and draws that [randrange] can
    make, [make_random_move] returns, and a cell [(i, j)] it returns has
    [i ≤ height − 2] and [j ≤ width − 2]: never the last row or column. *)
Theorem make_random_move_skips_last (ai : AI) (d : draws) :
  1 ≤ height ai → 1 ≤ width ai → valid_draws ai d →
  ∃ r, make_random_move ai d = Some r
       ∧ ∀ i j, r = Some (i, j) → i ≤ height ai - 2 ∧ j ≤ width ai - 2.
Proof.
  intros Hh Hw [Hr Hc]. unfold make_random_move, randrange.
  rewrite decide_True by lia. simpl.
  destruct (scan_rows_returns ai d (range (row_draw d))) as [r Hret]; [lia|].
  exists r. split; [done|]. intros i j ->.
  apply scan_rows_Some in Hret as (Hi & Hj & _). simpl in *.
  apply elem_of_range in Hi. specialize (Hc i). lia.
Qed.

Lemma make_random_move_skips_last_witness :
  ∃ r, make_random_move (init 3 3) (Draws 2 (λ _, 2)) = Some r
       ∧ ∀ i j, r = Some (i, j) → i ≤ height (init 3 3) - 2 ∧ j ≤ width (init 3 3) - 2.
Proof.
  apply (make_random_move_skips_last (init 3 3) (Draws 2 (λ _, 2))).
  - simpl. lia.
  - simpl. lia.
  - split; simpl; [lia|intros _; lia].
Defined.

(** C4 fails on the code: on a fresh 1×1 board the only row bound
    [randrange] can draw is 0, so [make_random_move] returns [None] although
    the cell (0, 0) is neither a known mine nor a move made. *)
Theorem make_random_move_misses_free_cell (d : draws) :
  valid_draws (init 1 1) d →
  make_random_move (init 1 1) d = Some None
  ∧ ((0, 0) ∉ mines (init 1 1)) ∧ ((0, 0) ∉ moves_made (init 1 1))
  ∧ 0 ≤ 0 < height (init 1 1) ∧ 0 ≤ 0 < width (init 1 1).
Proof.
  intros [Hr _]. simpl in Hr.
  assert (row_draw d = 0) as Hd by lia.
  unfold make_random_move, randrange. simpl. rewrite Hd.
  repeat split; try done; set_solver.
Qed.

Lemma make_random_move_misses_free_cell_witness :
  make_random_move (init 1 1) (Draws 0 (λ _, 0)) = Some None
  ∧ ((0, 0) ∉ mines (init 1 1)) ∧ ((0, 0) ∉ moves_made (init 1 1))
  ∧ 0 ≤ 0 < height (init 1 1) ∧ 0 ≤ 0 < width (init 1 1).
Proof.
  apply (make_random_move_misses_free_cell (Draws 0 (λ _, 0))).
  split; simpl; [lia|intros _; lia].
Defined.

End MoveFacts.

(** * The clean-up passes never raise *)
Module CleanFacts.
Import MinesweeperAI Notions.

Lemma list_remove_sublist (x : Sentence) (l l' : list Sentence) :
  list_remove x l = Some l' → l' `sublist_of` l.
Proof.
  revert l'. induction l as [|y l IH]; intros l'; simpl; [done|].
  case_decide.
  - intros [= ->]. by apply sublist_cons.
  - destruct (list_remove x l) as [l0|]; simpl; [|done].
    intros [= <-]. apply sublist_skip. by apply IH.
Qed.

Lemma list_remove_middle (x : Sentence) (l1 l2 : list Sentence) :
  x ∉ l1 → list_remove x (l1 ++ x :: l2) = Some (l1 ++ l2).
Proof.
  induction l1 as [|y l1 IH]; intros Hx; simpl.
  - by rewrite decide_True.
  - apply not_elem_of_cons in Hx as [Hne Hx].
    rewrite decide_False by done. by rewrite IH.
Qed.

Lemma try_remove_sublist (x : Sentence) (l : list Sentence) :
  try_remove x l `sublist_of` l.
Proof.
  unfold try_remove. destruct (list_remove x l) as [l'|] eqn:E; simpl; [|done].
  by apply list_remove_sublist in E.
Qed.

(** The loop of [clean_empty_sentences], after the sentences [pre] that
    were kept and before the sentences [rest] still to visit. *)
Lemma clean_empty_loop (pre rest : list Sentence) :
  Forall nonempty pre →
  foldl (fun kb sentence =>
           kb ← kb;
           if decide (Sentence.cells sentence = ∅)
           then list_remove sentence kb else Some kb)
        (Some (pre ++ rest)) rest
  = Some (pre ++ filter nonempty rest).
Proof.
  revert pre. induction rest as [|s rest IH]; intros pre Hpre; simpl.
  - by rewrite filter_nil.
  - case_decide as Hs.
    + rewrite list_remove_middle.
      * rewrite IH by done. rewrite filter_cons_False; [done|].
        unfold nonempty. by intros ?.
      * intros Hin. rewrite Forall_forall in Hpre. by apply Hpre in Hin.
    + rewrite filter_cons_True by done.
      rewrite (cons_middle s pre rest), app_assoc.
      rewrite IH; [by rewrite <- app_assoc|].
      apply Forall_app. split; [done|]. by apply Forall_singleton.
Qed.

Lemma clean_empty_sentences_eq (ai : AI) :
  clean_empty_sentences ai
  = Some (set_knowledge (filter nonempty (knowledge ai)) ai).
Proof.
  unfold clean_empty_sentences.
  pose proof (clean_empty_loop [] (knowledge ai) (Forall_nil_2 _)) as Hloop.
  cbn [app] in Hloop. by rewrite Hloop.
Qed.

Lemma clean_identical_at_sublist (clone kb : list Sentence) (p : nat * Sentence) :
  clean_identical_at clone kb p `sublist_of` kb.
Proof.
  unfold clean_identical_at.
  generalize (seq (S p.1) (length clone - S p.1)). intros idxs. revert kb.
  induction idxs as [|i idxs IH]; intros kb; simpl; [done|].
  etrans; [apply IH|].
  destruct (clone !! i); [|done]. case_decide; [|done]. apply try_remove_sublist.
Qed.

Lemma clean_identical_sentences_sublist (ai : AI) :
  knowledge (clean_identical_sentences ai) `sublist_of` knowledge ai.
Proof.
  unfold clean_identical_sentences. simpl.
  generalize (imap pair (knowledge ai)).
  generalize (knowledge ai) at 1. intros clone ps.
  generalize (knowledge ai). induction ps as [|p ps IH]; intros kb; simpl; [done|].
  etrans; [apply IH|]. apply clean_identical_at_sublist.
Qed.

Lemma clean_exceuted_loop (moves cur : gset Cell) (l : list Cell) :
  NoDup l → (∀ c, c ∈ l → c ∈ cur) →
  foldl (fun ss cell =>
           ss ← ss;
           if decide (cell ∈ moves) then set_remove cell ss else Some ss)
        (Some cur) l
  = Some (cur ∖ (list_to_set l ∩ moves)).
Proof.
  revert cur. induction l as [|c l IH]; intros cur Hnd Hin; simpl.
  - f_equal. set_solver.
  - apply NoDup_cons in Hnd as [Hc Hnd]. case_decide as Hm.
    + unfold set_remove. rewrite decide_True by (apply Hin; by left).
      rewrite IH; [f_equal; set_solver|done|].
      intros c' Hc'. apply elem_of_difference. split; [apply Hin; by right|].
      set_solver.
    + rewrite IH; [f_equal; set_solver|done|].
      intros c' Hc'. apply Hin. by right.
Qed.

Lemma clean_exceuted_safes_eq (ai : AI) :
  clean_exceuted_safes ai = Some (set_safes (safes ai ∖ moves_made ai) ai).
Proof.
  unfold clean_exceuted_safes.
  rewrite clean_exceuted_loop.
  - simpl. do 2 f_equal. rewrite list_to_set_elements_L. set_solver.
  - apply NoDup_elements.
  - intros c. by rewrite elem_of_elements.
Qed.

Lemma mark_and_clean_returns (ai : AI) : is_Some (mark_and_clean ai).
Proof. unfold mark_and_clean. rewrite clean_empty_sentences_eq. by eexists. Qed.

Lemma add_knowledge_returns (cell : Cell) (count : Z) (ai : AI) :
  is_Some (add_knowledge cell count ai).
Proof.
  unfold add_knowledge, before_inference.
  destruct (mark_and_clean_returns
              (add_new_sentence cell count
                 (mark_safe cell (set_moves_made (moves_made ai ∪ {[cell]}) ai))))
    as [ai1 ->]. simpl.
  destruct (mark_and_clean_returns (add_inferred ai1)) as [ai2 ->]. simpl.
  rewrite clean_exceuted_safes_eq. by eexists.
Qed.

Lemma run_returns (calls : list (Cell * Z)) (ai : AI) : is_Some (run calls ai).
Proof.
  revert ai. induction calls as [|[cell count] calls IH]; intros ai; simpl.
  - by eexists.
  - destruct (add_knowledge_returns cell count ai) as [ai' ->]. simpl. apply IH.
Qed.

End CleanFacts.

(** * What the marking loops compute *)
Module MarkFacts.
Import MinesweeperAI Notions.

Lemma mark_mines_cells (cs : list Cell) (s : Sentence) :
  Sentence.cells (mark_mines cs s) = Sentence.cells s ∖ list_to_set cs.
Proof.
  revert s. induction cs as [|c cs IH]; intros s; simpl.
  - set_solver.
  - fold (mark_mines cs (Sentence.mark_mine c s)).
    rewrite IH, SentenceFacts.mark_mine_cells. set_solver.
Qed.

Lemma mark_safes_cells (cs : list Cell) (s : Sentence) :
  Sentence.cells (mark_safes cs s) = Sentence.cells s ∖ list_to_set cs.
Proof.
  revert s. induction cs as [|c cs IH]; intros s; simpl.
  - set_solver.
  - fold (mark_safes cs (Sentence.mark_safe c s)).
    rewrite IH, SentenceFacts.mark_safe_cells. set_solver.
Qed.

Lemma mark_safes_count (cs : list Cell) (s : Sentence) :
  Sentence.count (mark_safes cs s) = Sentence.count s.
Proof.
  revert s. induction cs as [|c cs IH]; intros s; simpl; [done|].
  fold (mark_safes cs (Sentence.mark_safe c s)). by rewrite IH.
Qed.

Lemma sentence_eq (s1 s2 : Sentence) :
  Sentence.cells s1 = Sentence.cells s2 → Sentence.count s1 = Sentence.count s2 →
  s1 = s2.
Proof. destruct s1, s2. simpl. by intros -> ->. Qed.

Lemma mark_mines_count (cs : list Cell) (s : Sentence) :
  Sentence.count (mark_mines cs s)
  = Sentence.count s - Z.of_nat (size (Sentence.cells s ∩ list_to_set cs)).
Proof.
  revert s. induction cs as [|c cs IH]; intros s.
  - simpl. rewrite intersection_empty_r_L, size_empty. lia.
  - unfold mark_mines. simpl. fold (mark_mines cs (Sentence.mark_mine c s)).
    rewrite IH. destruct (decide (c ∈ Sentence.cells s)) as [Hin|Hin].
    + rewrite SentenceFacts.mark_mine_elem by done. simpl.
      replace (Sentence.cells s ∩ ({[c]} ∪ list_to_set cs))
        with ({[c]} ∪ (Sentence.cells s ∖ {[c]}) ∩ list_to_set cs).
      * assert ({[c]} ## (Sentence.cells s ∖ {[c]}) ∩ list_to_set cs) as Hd
          by set_solver.
        rewrite (size_union _ _ Hd), size_singleton. lia.
      * apply set_eq. intros x. destruct (decide (x = c)); set_solver.
    + rewrite SentenceFacts.mark_mine_not_elem by done.
      by replace (Sentence.cells s ∩ ({[c]} ∪ list_to_set cs))
        with (Sentence.cells s ∩ list_to_set cs) by set_solver.
Qed.

(** The outcome of marking the cells of a set does not depend on the order
    in which the set is walked. *)
Lemma mark_mines_eq (cs : list Cell) (s : Sentence) :
  mark_mines cs s
  = {| Sentence.cells := Sentence.cells s ∖ list_to_set cs;
       Sentence.count :=
         Sentence.count s - Z.of_nat (size (Sentence.cells s ∩ list_to_set cs)) |}.
Proof. apply sentence_eq; [apply mark_mines_cells|apply mark_mines_count]. Qed.

Lemma mark_safes_eq (cs : list Cell) (s : Sentence) :
  mark_safes cs s
  = {| Sentence.cells := Sentence.cells s ∖ list_to_set cs;
       Sentence.count := Sentence.count s |}.
Proof. apply sentence_eq; simpl; [apply mark_safes_cells|apply mark_safes_count]. Qed.

Lemma mark_cells_mine_eq (cs : list Cell) (ai : AI) :
  mark_cells_mine cs ai
  = {| height := height ai; width := width ai; moves_made := moves_made ai;
       mines := mines ai ∪ list_to_set cs; safes := safes ai;
       knowledge := mark_mines cs <$> knowledge ai |}.
Proof.
  revert ai. induction cs as [|c cs IH]; intros ai.
  - destruct ai as [h w mv ms ss kb]. unfold mark_cells_mine. simpl.
    f_equal; [set_solver|]. unfold mark_mines. simpl. by rewrite list_fmap_id.
  - unfold mark_cells_mine in *. simpl. rewrite IH. simpl.
    f_equal; [set_solver|]. by rewrite <- list_fmap_compose.
Qed.

Lemma mark_cells_safe_eq (cs : list Cell) (ai : AI) :
  mark_cells_safe cs ai
  = {| height := height ai; width := width ai; moves_made := moves_made ai;
       mines := mines ai; safes := safes ai ∪ list_to_set (unmoved ai cs);
       knowledge := mark_safes (unmoved ai cs) <$> knowledge ai |}.
Proof.
  revert ai. induction cs as [|c cs IH]; intros ai.
  - destruct ai as [h w mv ms ss kb]. unfold mark_cells_safe, unmoved. simpl.
    f_equal; [set_solver|]. unfold mark_safes. simpl. by rewrite list_fmap_id.
  - unfold mark_cells_safe, unmoved in *. simpl. case_decide as Hc.
    + rewrite IH. simpl. rewrite filter_cons_True by done.
      rewrite <- list_fmap_compose.
      set (cs' := filter _ cs).
      by replace (safes ai ∪ {[c]} ∪ list_to_set cs')
        with (safes ai ∪ list_to_set (c :: cs')) by set_solver.
    + rewrite IH. rewrite filter_cons_False; [done|by intros ?].
Qed.

Lemma unmoved_subseteq (ai : AI) (cs : list Cell) (c : Cell) :
  c ∈ unmoved ai cs ↔ c ∈ cs ∧ c ∉ moves_made ai.
Proof. unfold unmoved. rewrite list_elem_of_filter. tauto. Qed.

Lemma filter_neighbors_eq (ai : AI) (l : list Cell) (acc : list Cell * Z) :
  fold_left (filter_neighbor ai) l acc
  = (acc.1 ++ filter (open_cell ai) l,
     acc.2 - Z.of_nat (length (filter (λ c, c ∈ mines ai) l))).
Proof.
  revert acc. induction l as [|c l IH]; intros [cs n]; simpl.
  - rewrite app_nil_r. f_equal. lia.
  - rewrite IH. unfold filter_neighbor. simpl.
    destruct (decide (c ∈ mines ai)) as [Hm|Hm].
    + rewrite filter_cons_False by (unfold open_cell; tauto).
      rewrite (filter_cons_True (λ c, c ∈ mines ai)) by done. simpl.
      f_equal. lia.
    + rewrite (filter_cons_False (λ c, c ∈ mines ai)) by done.
      case_decide as Hs; simpl.
      * rewrite filter_cons_False by (unfold open_cell; tauto). done.
      * rewrite filter_cons_True by (unfold open_cell; tauto).
        by rewrite <- app_assoc.
Qed.

Lemma discard_known_loop (ai : AI) (l : list Cell) (cur : gset Cell) :
  fold_left (fun cur cell =>
               if decide (cell ∈ moves_made ai ∨ cell ∈ safes ai ∨ cell ∈ mines ai)
               then cur ∖ {[cell]} else cur) l cur
  = cur ∖ (list_to_set l ∩ known ai).
Proof.
  revert cur. induction l as [|c l IH]; intros cur; simpl.
  - set_solver.
  - rewrite IH. unfold known. case_decide; set_solver.
Qed.

Lemma discard_known_eq (ai : AI) (X : gset Cell) :
  discard_known ai X = X ∖ known ai.
Proof.
  unfold discard_known. rewrite discard_known_loop, list_to_set_elements_L.
  set_solver.
Qed.

End MarkFacts.

(** * The subset search *)
Module InferFacts.
Import MinesweeperAI Notions MarkFacts.

Lemma difference_empty_subseteq (X Y : gset Cell) : X ∖ Y = ∅ ↔ X ⊆ Y.
Proof.
  split; [|set_solver].
  intros HXY c Hc. destruct (decide (c ∈ Y)) as [|Hn]; [done|].
  assert (c ∈ X ∖ Y) as Hd by set_solver. rewrite HXY in Hd. set_solver.
Qed.

Lemma infer_pair_queued (ai : AI) (A B : Sentence) (acc : infer_state) :
  sub_sentences (infer_pair ai A acc B) = sub_sentences acc ++ queued ai A B.
Proof.
  unfold infer_pair, queued, derived.
  destruct (decide (Sentence.cells A ∖ Sentence.cells B = ∅)) as [Hsub|Hsub].
  - rewrite (decide_True (P := Sentence.cells A ⊆ Sentence.cells B))
      by (by apply difference_empty_subseteq).
    rewrite discard_known_eq. simpl.
    destruct (decide ((Sentence.cells B ∖ Sentence.cells A) ∖ known ai ≠ ∅))
      as [Hne|He].
    + rewrite decide_True by (split; [done|lia]).
      case_decide; simpl; [done|by rewrite app_nil_r].
    + rewrite decide_False by tauto. simpl. by rewrite app_nil_r.
  - rewrite (decide_False (P := Sentence.cells A ⊆ Sentence.cells B))
      by (by rewrite <- difference_empty_subseteq).
    rewrite discard_known_eq.
    rewrite decide_False by (intros [Hne _]; apply Hne; set_solver).
    simpl. by rewrite app_nil_r.
Qed.

Lemma infer_inner_queued (ai : AI) (A : Sentence) (l : list Sentence)
    (acc : infer_state) :
  sub_sentences (fold_left (infer_pair ai A) l acc)
  = sub_sentences acc ++ (B ← l; queued ai A B).
Proof.
  revert acc. induction l as [|B l IH]; intros acc; simpl.
  - by rewrite app_nil_r.
  - by rewrite IH, infer_pair_queued, <- app_assoc.
Qed.

Lemma infer_outer_queued (ai : AI) (kb l : list Sentence) (acc : infer_state) :
  sub_sentences
    (fold_left (fun acc A => fold_left (infer_pair ai A) kb acc) l acc)
  = sub_sentences acc ++ (A ← l; B ← kb; queued ai A B).
Proof.
  revert acc. induction l as [|A l IH]; intros acc; simpl.
  - by rewrite app_nil_r.
  - by rewrite IH, infer_inner_queued, <- app_assoc.
Qed.

(** [sub_sentences] after both loops: the queued sentence of every ordered
    pair, in loop order. *)
Lemma infer_subsets_eq (ai : AI) :
  infer_subsets ai = (A ← knowledge ai; B ← knowledge ai; queued ai A B).
Proof. unfold infer_subsets. by rewrite infer_outer_queued. Qed.

Lemma elem_of_infer_subsets (ai : AI) (s : Sentence) :
  s ∈ infer_subsets ai ↔
  ∃ A B, A ∈ knowledge ai ∧ B ∈ knowledge ai
         ∧ derived ai A B = Some s ∧ s ∉ knowledge ai.
Proof.
  rewrite infer_subsets_eq, list_elem_of_bind. split.
  - intros (A & Hs & HA). apply list_elem_of_bind in Hs as (B & Hs & HB).
    exists A, B. unfold queued in Hs.
    destruct (derived ai A B) as [s'|]; [|by apply elem_of_nil in Hs].
    case_decide; [|by apply elem_of_nil in Hs].
    apply list_elem_of_singleton in Hs as ->. done.
  - intros (A & B & HA & HB & Hd & Hnew). exists A. split; [|done].
    apply list_elem_of_bind. exists B. split; [|done].
    unfold queued. rewrite Hd, decide_True by done. by left.
Qed.

Lemma derived_Some (ai : AI) (A B s : Sentence) :
  derived ai A B = Some s →
  Sentence.cells A ⊆ Sentence.cells B
  ∧ Sentence.cells s = (Sentence.cells B ∖ Sentence.cells A) ∖ known ai
  ∧ Sentence.cells s ≠ ∅
  ∧ Sentence.count s = Z.abs (Sentence.count B - Sentence.count A).
Proof.
  unfold derived. case_decide; [|done]. case_decide; [|done].
  by intros [= <-].
Qed.

End InferFacts.

(** * Proof rules for [add_knowledge] *)
Module Rules.
Import MinesweeperAI Notions MarkFacts CleanFacts.

(** At one position of the knowledge base, [mark_mines_safes] does nothing,
    or marks all cells of a sentence whose count equals its size as mines,
    or marks the cells of a sentence with count 0 as safe. *)
Lemma mark_mines_safes_at_cases (ai : AI) (i : nat) :
  mark_mines_safes_at ai i = ai
  ∨ (∃ s, s ∈ knowledge ai ∧ Sentence.len s = Sentence.count s
          ∧ mark_mines_safes_at ai i
            = mark_cells_mine (elements (Sentence.cells s)) ai)
  ∨ (∃ s, s ∈ knowledge ai ∧ Sentence.count s = 0
          ∧ mark_mines_safes_at ai i
            = mark_cells_safe (elements (Sentence.cells s)) ai).
Proof.
  unfold mark_mines_safes_at.
  destruct (knowledge ai !! i) as [s|] eqn:Hi; [|by left].
  assert (s ∈ knowledge ai) as Hs by (by eapply list_elem_of_lookup_2).
  unfold Sentence.known_mines, Sentence.known_safes.
  destruct (decide (Sentence.len s = Sentence.count s)) as [Hlen|Hlen];
    destruct (decide (Sentence.count s = 0)) as [Hz|Hz].
  - assert (size (Sentence.cells s) = 0%nat) as Hsz
        by (unfold Sentence.len in Hlen; lia).
    left. rewrite Hsz. by rewrite !decide_False by (intros Hn; by apply Hn).
  - rewrite (decide_False (P := size (∅ : gset Cell) ≠ 0%nat))
      by (rewrite size_empty; intros Hn; by apply Hn).
    case_decide; [|by left]. right. left. by exists s.
  - rewrite (decide_False (P := size (∅ : gset Cell) ≠ 0%nat))
      by (rewrite size_empty; intros Hn; by apply Hn).
    case_decide; [|by left]. right. right. by exists s.
  - left. rewrite size_empty.
    by rewrite !decide_False by (intros Hn; by apply Hn).
Qed.

Section rules.
Variable P : AI → Prop.

Lemma mark_mines_safes_rule :
  (∀ a i, P a → P (mark_mines_safes_at a i)) →
  ∀ a, P a → P (mark_mines_safes a).
Proof.
  intros Hat a. unfold mark_mines_safes.
  generalize (seq 0 (length (knowledge a))). intros idxs. revert a.
  induction idxs as [|i idxs IH]; intros a Ha; simpl; [done|].
  apply IH. by apply Hat.
Qed.

(** A property survives [mark_mines_safes] when it survives the two
    markings the loop can make. *)
Lemma mark_mines_safes_rule' :
  (∀ a s, P a → s ∈ knowledge a → Sentence.len s = Sentence.count s →
          P (mark_cells_mine (elements (Sentence.cells s)) a)) →
  (∀ a s, P a → s ∈ knowledge a → Sentence.count s = 0 →
          P (mark_cells_safe (elements (Sentence.cells s)) a)) →
  ∀ a, P a → P (mark_mines_safes a).
Proof.
  intros Hmine Hsafe. apply mark_mines_safes_rule. intros a i Ha.
  destruct (mark_mines_safes_at_cases a i)
    as [->|[(s & Hs & Hc & ->)|(s & Hs & Hc & ->)]]; auto.
Qed.

Hypothesis P_sublist :
  ∀ a kb, P a → kb `sublist_of` knowledge a → P (set_knowledge kb a).
Hypothesis P_mark : ∀ a, P a → P (mark_mines_safes a).
Hypothesis P_infer : ∀ a, P a → P (add_inferred a).
Hypothesis P_executed :
  ∀ a, P a → P (set_safes (safes a ∖ moves_made a) a).

Lemma mark_and_clean_rule (a : AI) :
  P a → ∃ a', mark_and_clean a = Some a' ∧ P a'.
Proof.
  intros Ha. unfold mark_and_clean. rewrite clean_empty_sentences_eq. simpl.
  eexists. split; [done|].
  set (a1 := set_knowledge _ (mark_mines_safes a)).
  assert (P a1) as Ha1 by (apply P_sublist; [by apply P_mark|apply sublist_filter]).
  pose proof (P_sublist a1 _ Ha1 (clean_identical_sentences_sublist a1)) as Ha2.
  by destruct a1.
Qed.

(** [add_knowledge] returns, in a state with property [P], when [P] holds
    once the new sentence is in and survives each later pass. *)
Lemma add_knowledge_rule (cell : Cell) (count : Z) (ai : AI) :
  P (add_new_sentence cell count
       (mark_safe cell (set_moves_made (moves_made ai ∪ {[cell]}) ai))) →
  ∃ ai', add_knowledge cell count ai = Some ai' ∧ P ai'.
Proof.
  intros H0. unfold add_knowledge, before_inference.
  destruct (mark_and_clean_rule _ H0) as (a1 & -> & H1). simpl.
  destruct (mark_and_clean_rule _ (P_infer _ H1)) as (a2 & -> & H2). simpl.
  rewrite clean_exceuted_safes_eq. eexists. split; [done|].
  by apply P_executed.
Qed.

End rules.

End Rules.

(** * Invariants of the engine state *)
Module Invariants.
Import MinesweeperAI Notions MarkFacts CleanFacts InferFacts Rules.

Lemma consistent_init (h w : Z) : consistent (init h w).
Proof. split; simpl; [set_solver|constructor]. Qed.

Lemma consistent_sublist (a : AI) (kb : list Sentence) :
  consistent a → kb `sublist_of` knowledge a → consistent (set_knowledge kb a).
Proof.
  intros [Hd Hf] Hsub. split; [done|]. simpl.
  rewrite Forall_forall in *. intros s Hs.
  by eapply Hf, elem_of_sublist.
Qed.

Lemma consistent_mark_cells_mine (a : AI) (s : Sentence) :
  consistent a → s ∈ knowledge a →
  consistent (mark_cells_mine (elements (Sentence.cells s)) a).
Proof.
  intros [Hd Hf] Hs. rewrite mark_cells_mine_eq.
  rewrite Forall_forall in Hf. pose proof (Hf s Hs) as Hfs.
  unfold fresh, known in Hfs.
  split; simpl.
  - rewrite list_to_set_elements_L. set_solver.
  - apply Forall_fmap, Forall_forall. intros s' Hs'. apply Hf in Hs'.
    unfold fresh, known in *. simpl.
    rewrite mark_mines_cells, list_to_set_elements_L. set_solver.
Qed.

Lemma consistent_mark_cells_safe (a : AI) (s : Sentence) :
  consistent a → s ∈ knowledge a →
  consistent (mark_cells_safe (elements (Sentence.cells s)) a).
Proof.
  intros [Hd Hf] Hs. rewrite mark_cells_safe_eq.
  rewrite Forall_forall in Hf. pose proof (Hf s Hs) as Hfs.
  unfold fresh, known in Hfs.
  assert (∀ c, c ∈ (list_to_set (unmoved a (elements (Sentence.cells s))) : gset Cell)
               ↔ c ∈ Sentence.cells s ∧ c ∉ moves_made a) as Hun.
  { intros c. by rewrite elem_of_list_to_set, unmoved_subseteq, elem_of_elements. }
  split; simpl.
  - set_solver.
  - apply Forall_fmap, Forall_forall. intros s' Hs'. apply Hf in Hs'.
    unfold fresh, known in *. simpl.
    rewrite mark_safes_cells. set_solver.
Qed.

Lemma consistent_mark (a : AI) : consistent a → consistent (mark_mines_safes a).
Proof.
  apply mark_mines_safes_rule'.
  - intros a' s Ha Hs _. by apply consistent_mark_cells_mine.
  - intros a' s Ha Hs _. by apply consistent_mark_cells_safe.
Qed.

Lemma consistent_infer (a : AI) : consistent a → consistent (add_inferred a).
Proof.
  intros [Hd Hf]. split; [done|]. unfold add_inferred. simpl.
  apply Forall_app. split; [done|].
  apply Forall_forall. intros s Hs.
  apply elem_of_infer_subsets in Hs as (A & B & _ & _ & Hder & _).
  apply derived_Some in Hder as (_ & Hcells & _).
  unfold fresh. simpl. fold (known a). rewrite Hcells. set_solver.
Qed.

Lemma consistent_executed (a : AI) :
  consistent a → consistent (set_safes (safes a ∖ moves_made a) a).
Proof.
  intros [Hd Hf]. split; simpl; [set_solver|].
  eapply Forall_impl; [exact Hf|]. intros s.
  unfold fresh, known. simpl. set_solver.
Qed.

Lemma consistent_new_sentence (cell : Cell) (count : Z) (ai : AI) :
  consistent ai →
  consistent (add_new_sentence cell count
                (mark_safe cell (set_moves_made (moves_made ai ∪ {[cell]}) ai))).
Proof.
  intros [Hd Hf].
  set (a0 := mark_safe cell _).
  assert (consistent a0) as H0.
  { split; [done|]. simpl. apply Forall_fmap.
    eapply Forall_impl; [exact Hf|]. intros s.
    unfold fresh, known. simpl. set_solver. }
  unfold add_new_sentence. rewrite filter_neighbors_eq. simpl.
  case_decide; [|done]. case_decide; [done|].
  destruct H0 as [Hd0 Hf0]. split; [done|]. simpl.
  apply Forall_app. split; [done|]. apply Forall_singleton.
  unfold fresh, known. simpl. intros c Hc Hk.
  apply elem_of_list_to_set, list_elem_of_filter in Hc as [(Hm & Hs & Hv) _].
  simpl in *. set_solver.
Qed.

Lemma consistent_add_knowledge (cell : Cell) (count : Z) (ai : AI) :
  consistent ai →
  ∃ ai', add_knowledge cell count ai = Some ai' ∧ consistent ai'.
Proof.
  intros Hc. apply add_knowledge_rule.
  - apply consistent_sublist.
  - apply consistent_mark.
  - apply consistent_infer.
  - apply consistent_executed.
  - by apply consistent_new_sentence.
Qed.

Lemma consistent_run (calls : list (Cell * Z)) (ai : AI) :
  consistent ai → ∃ ai', run calls ai = Some ai' ∧ consistent ai'.
Proof.
  revert ai. induction calls as [|[cell count] calls IH]; intros ai Hc; simpl.
  - by exists ai.
  - destruct (consistent_add_knowledge cell count ai Hc) as (ai1 & -> & H1).
    simpl. by apply IH.
Qed.

(** C1: from a fresh engine of any size, every sequence of [add_knowledge]
    calls, with any cells and any integer counts, returns, and in the state
    it leaves the known safes and the known mines are disjoint. *)
Theorem safes_mines_disjoint (h w : Z) (calls : list (Cell * Z)) :
  ∃ ai, run calls (init h w) = Some ai ∧ safes ai ∩ mines ai = ∅.
Proof.
  destruct (consistent_run calls (init h w) (consistent_init h w))
    as (ai & Hrun & Hd & _).
  exists ai. split; [done|]. set_solver.
Qed.

End Invariants.

(** * Single calls of [add_knowledge] *)
Module CallFacts.
Import MinesweeperAI Notions MarkFacts CleanFacts InferFacts Rules.

Lemma recorded_add_knowledge (cell : Cell) (count : Z) (ai : AI) :
  ∃ ai', add_knowledge cell count ai = Some ai' ∧ recorded ai cell ai'.
Proof.
  apply add_knowledge_rule.
  - by intros a kb [Hm Hs] _.
  - apply mark_mines_safes_rule'.
    + intros a s [Hm Hs] _ _. rewrite mark_cells_mine_eq. by split.
    + intros a s [Hm Hs] _ _. rewrite mark_cells_safe_eq.
      split; simpl; [done|set_solver].
  - by intros a [Hm Hs].
  - intros a [Hm Hs]. split; simpl; [done|]. rewrite Hm. set_solver.
  - unfold add_new_sentence. rewrite filter_neighbors_eq. simpl.
    repeat case_decide; split; simpl; set_solver.
Qed.

(** C3, as the code has it: [add_knowledge] checks no precondition.  For
    every cell, also one already in [moves_made], and every integer count,
    also one outside the neighbour range, it returns normally with the cell
    recorded in [moves_made]. *)
Theorem add_knowledge_accepts_any_call (cell : Cell) (count : Z) (ai : AI) :
  ∃ ai', add_knowledge cell count ai = Some ai'
         ∧ moves_made ai' = moves_made ai ∪ {[cell]}.
Proof.
  destruct (recorded_add_knowledge cell count ai) as (ai' & Hret & Hm & _).
  by exists ai'.
Qed.

(** C3 fails on the code: on a 1×3 board, after (0,0) was revealed, a second
    call for (0,0), with count 9 although the cell has one neighbour,
    returns normally. *)
Lemma add_knowledge_repeated_move_returns :
  ∃ ai1 ai2,
    add_knowledge (0, 0) 0 (init 1 3) = Some ai1
    ∧ (0, 0) ∈ moves_made ai1
    ∧ length (neighbors ai1 (0, 0)) = 1%nat
    ∧ add_knowledge (0, 0) 9 ai1 = Some ai2.
Proof.
  destruct (recorded_add_knowledge (0, 0) 0 (init 1 3)) as (ai1 & H1 & Hm & _).
  destruct (recorded_add_knowledge (0, 0) 9 ai1) as (ai2 & H2 & _).
  exists ai1, ai2. repeat split; [done|rewrite Hm; set_solver| |done].
  assert (height ai1 = 1 ∧ width ai1 = 3) as [Hh Hw].
  { revert H1. vm_compute. by intros [= <-]. }
  unfold neighbors. rewrite Hh, Hw. reflexivity.
Qed.

(** C6, as the code has it: after [add_knowledge] returns, no cell of
    [moves_made] is left in [safes]. *)
Theorem safes_exclude_moves_made (cell : Cell) (count : Z) (ai : AI) :
  ∃ ai', add_knowledge cell count ai = Some ai'
         ∧ safes ai' ∩ moves_made ai' = ∅.
Proof.
  unfold add_knowledge.
  destruct (before_inference cell count ai) as [a1|] eqn:E1.
  - simpl. destruct (mark_and_clean_returns (add_inferred a1)) as [a2 ->].
    simpl. rewrite clean_exceuted_safes_eq. eexists. split; [done|].
    simpl. set_solver.
  - unfold before_inference in E1.
    destruct (mark_and_clean_returns
                (add_new_sentence cell count
                   (mark_safe cell (set_moves_made (moves_made ai ∪ {[cell]}) ai))))
      as [a1 Ha1].
    congruence.
Qed.

(** C6 fails on the code: revealing (0,0) with count 0 on a fresh 1×3 board
    leaves (0,0) in [moves_made] and outside [safes]. *)
Lemma moves_made_not_in_safes :
  ∃ ai', add_knowledge (0, 0) 0 (init 1 3) = Some ai'
         ∧ ¬ (moves_made ai' ⊆ safes ai').
Proof.
  destruct (add_knowledge (0, 0) 0 (init 1 3)) as [ai'|] eqn:E; [|by vm_compute in E].
  exists ai'. split; [done|]. intros Hsub.
  specialize (Hsub (0, 0)). revert E Hsub. vm_compute. intros [= <-] Hsub.
  generalize (Hsub eq_refl). vm_compute. done.
Qed.

End CallFacts.

(** * Safes kept across a call, and the sentence a subset pair derives *)
Module DerivationFacts.
Import MinesweeperAI Notions MarkFacts CleanFacts InferFacts Rules CallFacts.

(** C7, as the code has it: a cell known safe before a call of
    [add_knowledge] is still known safe after it, unless it is in
    [moves_made] by then. *)
Theorem safes_kept_unless_moved (cell : Cell) (count : Z) (ai : AI) :
  ∃ ai', add_knowledge cell count ai = Some ai'
         ∧ ∀ c, c ∈ safes ai → c ∉ moves_made ai' → c ∈ safes ai'.
Proof.
  destruct (recorded_add_knowledge cell count ai) as (ai' & Hret & Hm & Hs).
  exists ai'. split; [done|]. intros c Hc Hmv. apply Hs. set_solver.
Qed.

(** C7 fails on the code: on a 1×3 board, after (0,0) is revealed with count
    0 the cell (0,1) is known safe; revealing (0,1) removes it from
    [safes]. *)
Lemma safes_shrink_on_reveal :
  ∃ ai1 ai2,
    add_knowledge (0, 0) 0 (init 1 3) = Some ai1
    ∧ add_knowledge (0, 1) 0 ai1 = Some ai2
    ∧ ¬ (safes ai1 ⊆ safes ai2).
Proof.
  exists {| height := 1; width := 3; moves_made := {[(0, 0)]}; mines := ∅;
            safes := {[(0, 1)]}; knowledge := [] |},
         {| height := 1; width := 3; moves_made := {[(0, 0); (0, 1)]}; mines := ∅;
            safes := {[(0, 2)]}; knowledge := [] |}.
  split; [by vm_compute|]. split; [by vm_compute|]. simpl. by_evaluation.
Qed.

(** C2, as the code has it: for a pair ([A], [B]) with the cells of [A]
    among those of [B], the loop body derives the cells of [B] outside [A]
    that are not already moves, safes or mines, with count
    [|B.count − A.count|]; it queues that sentence when it has a cell and is
    not in the knowledge base.  The count is [B.count − A.count] when
    [A.count ≤ B.count], and for sentences of the knowledge base the queued
    sentence is among the ones [add_knowledge] appends. *)
Theorem subset_pair_derives (ai : AI) (A B : Sentence) (acc : infer_state) :
  Sentence.cells A ⊆ Sentence.cells B →
  let cs := (Sentence.cells B ∖ Sentence.cells A)
              ∖ (moves_made ai ∪ safes ai ∪ mines ai) in
  let new := Sentence.Build cs (Z.abs (Sentence.count B - Sentence.count A)) in
  sub_sentences (infer_pair ai A acc B)
  = sub_sentences acc ++ (if decide (cs ≠ ∅ ∧ new ∉ knowledge ai) then [new] else [])
  ∧ (Sentence.count A ≤ Sentence.count B →
     Sentence.count new = Sentence.count B - Sentence.count A)
  ∧ (A ∈ knowledge ai → B ∈ knowledge ai → cs ≠ ∅ → new ∉ knowledge ai →
     new ∈ infer_subsets ai).
Proof.
  intros Hsub cs new.
  assert (derived ai A B = if decide (cs ≠ ∅) then Some new else None) as Hder.
  { unfold derived. by rewrite decide_True by done. }
  split; [|split].
  - rewrite infer_pair_queued. f_equal. unfold queued. rewrite Hder.
    destruct (decide (cs ≠ ∅)) as [Hne|He].
    + destruct (decide (new ∉ knowledge ai)) as [Hnew|Hold].
      * by rewrite decide_True by done.
      * by rewrite decide_False by tauto.
    + by rewrite decide_False by tauto.
  - intros Hle. simpl. lia.
  - intros HA HB Hne Hnew. apply elem_of_infer_subsets.
    exists A, B. rewrite Hder, decide_True by done. done.
Qed.

(** The example of the specification: from [{(0,0),(0,1)} = 1] and
    [{(0,0),(0,1),(0,2)} = 1] on a fresh board, [{(0,2)} = 0]. *)
Lemma subset_pair_derives_witness :
  let A := Sentence.Build {[(0, 0); (0, 1)]} 1 in
  let B := Sentence.Build {[(0, 0); (0, 1); (0, 2)]} 1 in
  let ai := set_knowledge [A; B] (init 1 4) in
  Sentence.cells A ⊆ Sentence.cells B
  ∧ sub_sentences (infer_pair ai A (InferState [] (-1)) B)
    = [Sentence.Build {[(0, 2)]} 0].
Proof.
  intros A B ai.
  assert (Sentence.cells A ⊆ Sentence.cells B) as Hsub by by_evaluation.
  split; [exact Hsub|].
  destruct (subset_pair_derives ai A B (InferState [] (-1)) Hsub) as (Heq & _).
  rewrite Heq. vm_compute. reflexivity.
Defined.

(** C2 fails on the code: on a 3×3 board, after (0,1) is revealed with count
    2 and while (1,1) is revealed with count 1, the knowledge base holds [A]
    with count 2 and [B] with count 1, the cells of [A] among those of [B];
    the derived sentence has count 1, not [B.count − A.count = −1]. *)
Lemma subset_pair_count_not_difference :
  let A := Sentence.Build {[(0, 0); (0, 2); (1, 0); (1, 2)]} 2 in
  let B := Sentence.Build
             {[(0, 0); (0, 2); (1, 0); (1, 2); (2, 0); (2, 1); (2, 2)]} 1 in
  let new := Sentence.Build {[(2, 0); (2, 1); (2, 2)]} 1 in
  ∃ ai1 ai,
    add_knowledge (0, 1) 2 (init 3 3) = Some ai1
    ∧ before_inference (1, 1) 1 ai1 = Some ai
    ∧ knowledge ai = [A; B]
    ∧ A ≠ B ∧ Sentence.cells A ⊆ Sentence.cells B
    ∧ infer_subsets ai = [new]
    ∧ Sentence.count new ≠ Sentence.count B - Sentence.count A.
Proof.
  intros A B new.
  exists {| height := 3; width := 3; moves_made := {[(0, 1)]}; mines := ∅;
            safes := ∅;
            knowledge := [Sentence.Build
                            {[(0, 0); (0, 2); (1, 0); (1, 1); (1, 2)]} 2] |},
         {| height := 3; width := 3; moves_made := {[(0, 1); (1, 1)]};
            mines := ∅; safes := ∅; knowledge := [A; B] |}.
  split; [by vm_compute|]. split; [by vm_compute|]. split; [done|].
  split; [by_evaluation|]. split; [by_evaluation|].
  split; [by vm_compute|]. simpl. lia.
Qed.

End DerivationFacts.

(** * The neighbours of a cell and the board's count *)
Module NeighborFacts.
Import MinesweeperAI Notions.

Lemma neighbors_grid (ai : AI) (cell : Cell) :
  neighbors ai cell = grid3 cell ≫= keep_neighbor ai cell.
Proof.
  unfold neighbors, grid3, keep_neighbor, range3. cbn.
  rewrite ?app_nil_r, <- ?app_assoc. reflexivity.
Qed.

Lemma NoDup_grid3 (cell : Cell) : NoDup (grid3 cell).
Proof.
  unfold grid3, range3. cbn.
  repeat (apply NoDup_cons; split;
          [rewrite ?not_elem_of_cons; split_and?;
           try (apply not_elem_of_nil); intros [=]; lia|]).
  apply NoDup_nil_2.
Qed.

Lemma elem_of_keep_neighbor (ai : AI) (cell ij c : Cell) :
  c ∈ keep_neighbor ai cell ij → c = ij.
Proof.
  unfold keep_neighbor. repeat case_decide; set_solver.
Qed.

Lemma NoDup_neighbors (ai : AI) (cell : Cell) : NoDup (neighbors ai cell).
Proof.
  rewrite neighbors_grid. apply NoDup_bind; [| |apply NoDup_grid3].
  - intros x1 x2 y _ _ H1 H2.
    apply elem_of_keep_neighbor in H1, H2. congruence.
  - intros x _. unfold keep_neighbor.
    repeat case_decide; try apply NoDup_nil_2. apply NoDup_singleton.
Qed.

(** The loop of [nearby_mines] counts the mines among what [neighbors]
    keeps. *)
Lemma nearby_loop (g : Minesweeper.t) (ai : AI) (cell : Cell)
    (l : list Cell) (n : Z) :
  height ai = Minesweeper.height g → width ai = Minesweeper.width g →
  fold_left (Minesweeper.nearby_step g cell) l n
  = n + Z.of_nat (length (filter (λ c, c ∈ Minesweeper.mines g)
                                 (l ≫= keep_neighbor ai cell))).
Proof.
  intros Hh Hw. revert n. induction l as [|ij l IH]; intros n.
  - simpl. lia.
  - cbn [fold_left]. rewrite IH, bind_cons, filter_app, length_app.
    set (rest := filter _ (l ≫= keep_neighbor ai cell)).
    unfold Minesweeper.nearby_step, keep_neighbor, Minesweeper.board.
    rewrite Hh, Hw. case_decide; [rewrite filter_nil; simpl; lia|].
    case_decide; [|rewrite filter_nil; simpl; lia].
    case_bool_decide.
    + rewrite filter_cons_True, filter_nil by done. simpl. lia.
    + rewrite filter_cons_False, filter_nil by done. simpl. lia.
Qed.

Lemma nearby_mines_neighbors (g : Minesweeper.t) (ai : AI) (cell : Cell) :
  height ai = Minesweeper.height g → width ai = Minesweeper.width g →
  Minesweeper.nearby_mines g cell
  = Z.of_nat (length (filter (λ c, c ∈ Minesweeper.mines g) (neighbors ai cell))).
Proof.
  intros Hh Hw. unfold Minesweeper.nearby_mines. fold (grid3 cell).
  by rewrite (nearby_loop g ai), neighbors_grid.
Qed.

End NeighborFacts.

(** * Sentences stay exact when the clues come from a board *)
Module Soundness.
Import MinesweeperAI Notions MarkFacts CleanFacts InferFacts Rules Invariants
       NeighborFacts.

Section layout.
Variable M : gset Cell.

Lemma exact_mark_mine (c : Cell) (s : Sentence) :
  c ∈ M → exact M s → exact M (Sentence.mark_mine c s).
Proof.
  intros Hc Hs. destruct (decide (c ∈ Sentence.cells s)) as [Hin|Hin].
  - rewrite SentenceFacts.mark_mine_elem by done. unfold exact in *. simpl.
    replace ((Sentence.cells s ∖ {[c]}) ∩ M)
      with ((Sentence.cells s ∩ M) ∖ {[c]}) by set_solver.
    assert ({[c]} ⊆ Sentence.cells s ∩ M) as Hsub by set_solver.
    rewrite size_difference by done.
    apply subseteq_size in Hsub. rewrite size_singleton in *. lia.
  - by rewrite SentenceFacts.mark_mine_not_elem.
Qed.

Lemma exact_mark_safe (c : Cell) (s : Sentence) :
  c ∉ M → exact M s → exact M (Sentence.mark_safe c s).
Proof.
  intros Hc Hs. unfold exact in *. simpl.
  by replace ((Sentence.cells s ∖ {[c]}) ∩ M)
    with (Sentence.cells s ∩ M) by set_solver.
Qed.

Lemma exact_mark_mines (cs : list Cell) (s : Sentence) :
  (∀ c, c ∈ cs → c ∈ M) → exact M s → exact M (mark_mines cs s).
Proof.
  revert s. induction cs as [|c cs IH]; intros s Hcs Hs; [done|].
  unfold mark_mines. simpl. apply IH.
  - intros c' Hc'. apply Hcs. by right.
  - apply exact_mark_mine; [|done]. apply Hcs. by left.
Qed.

Lemma exact_mark_safes (cs : list Cell) (s : Sentence) :
  (∀ c, c ∈ cs → c ∉ M) → exact M s → exact M (mark_safes cs s).
Proof.
  revert s. induction cs as [|c cs IH]; intros s Hcs Hs; [done|].
  unfold mark_safes. simpl. apply IH.
  - intros c' Hc'. apply Hcs. by right.
  - apply exact_mark_safe; [|done]. apply Hcs. by left.
Qed.

Lemma exact_bounded (s : Sentence) : exact M s → bounded s.
Proof.
  unfold exact, bounded, Sentence.len. intros ->.
  assert (Sentence.cells s ∩ M ⊆ Sentence.cells s) as Hsub by set_solver.
  apply subseteq_size in Hsub. lia.
Qed.

(** A sentence whose count is its size has only mines. *)
Lemma exact_full (s : Sentence) :
  exact M s → Sentence.len s = Sentence.count s → Sentence.cells s ⊆ M.
Proof.
  unfold exact, Sentence.len. intros Hs Hlen.
  assert (Sentence.cells s ∩ M = Sentence.cells s) as Heq; [|set_solver].
  apply set_subseteq_size_eq; [set_solver|lia].
Qed.

(** A sentence with count 0 has no mine. *)
Lemma exact_zero (s : Sentence) :
  exact M s → Sentence.count s = 0 → Sentence.cells s ## M.
Proof.
  unfold exact. intros Hs Hz.
  assert (size (Sentence.cells s ∩ M) = 0%nat) as Hsz by lia.
  apply size_empty_iff in Hsz. set_solver.
Qed.

(** Among distinct cells, the mines that are not yet known mines are the
    mines among the open cells. *)
Lemma open_mines_count (ai : AI) (l : list Cell) :
  mines ai ⊆ M → safes ai ## M → moves_made ai ## M → NoDup l →
  Z.of_nat (length (filter (λ c, c ∈ M) l))
  - Z.of_nat (length (filter (λ c, c ∈ mines ai) l))
  = Z.of_nat (size ((list_to_set (filter (open_cell ai) l) : gset Cell) ∩ M)).
Proof.
  intros Hm Hs Hv. induction 1 as [|c l Hc Hnd IH].
  - rewrite !filter_nil. simpl. by rewrite intersection_empty_l_L, size_empty.
  - destruct (decide (c ∈ mines ai)) as [Hcm|Hcm].
    + rewrite (filter_cons_True (λ c, c ∈ M)) by set_solver.
      rewrite (filter_cons_True (λ c, c ∈ mines ai)) by done.
      rewrite (filter_cons_False (open_cell ai)) by (unfold open_cell; tauto).
      simpl. lia.
    + rewrite (filter_cons_False (λ c, c ∈ mines ai)) by done.
      destruct (decide (open_cell ai c)) as [Ho|Ho].
      * rewrite (filter_cons_True (open_cell ai)) by done.
        destruct (decide (c ∈ M)) as [HcM|HcM].
        -- rewrite (filter_cons_True (λ c, c ∈ M)) by done.
           rewrite list_to_set_cons.
           replace (({[c]} ∪ list_to_set (filter (open_cell ai) l)) ∩ M)
             with ({[c]} ∪ ((list_to_set (filter (open_cell ai) l) : gset Cell) ∩ M))
             by set_solver.
           rewrite size_union, size_singleton; [simpl; lia|].
           apply disjoint_singleton_l. intros Hin.
           apply elem_of_intersection in Hin as [Hin _].
           apply elem_of_list_to_set, list_elem_of_filter in Hin as [_ Hin]. done.
        -- rewrite (filter_cons_False (λ c, c ∈ M)) by done.
           rewrite list_to_set_cons.
           by replace (({[c]} ∪ list_to_set (filter (open_cell ai) l)) ∩ M)
             with ((list_to_set (filter (open_cell ai) l) : gset Cell) ∩ M)
             by set_solver.
      * rewrite (filter_cons_False (open_cell ai)) by done.
        rewrite (filter_cons_False (λ c, c ∈ M)); [done|].
        unfold open_cell in Ho. intros HcM.
        apply Ho. split; [done|]. set_solver.
Qed.

(** The sentence derived from a subset pair counts the mines it has. *)
Lemma exact_derived (A B s : Sentence) (K : gset Cell) :
  exact M A → exact M B →
  Sentence.cells A ⊆ Sentence.cells B → Sentence.cells B ## K →
  Sentence.cells s = (Sentence.cells B ∖ Sentence.cells A) ∖ K →
  Sentence.count s = Z.abs (Sentence.count B - Sentence.count A) →
  exact M s.
Proof.
  unfold exact. intros HeA HeB Hsub HfB Hcells Hcount.
  rewrite Hcount, Hcells, HeA, HeB.
  replace (((Sentence.cells B ∖ Sentence.cells A) ∖ K) ∩ M)
    with ((Sentence.cells B ∩ M) ∖ (Sentence.cells A ∩ M)) by set_solver.
  assert (Sentence.cells A ∩ M ⊆ Sentence.cells B ∩ M) as HAB by set_solver.
  rewrite (size_difference _ _ HAB).
  apply subseteq_size in HAB. lia.
Qed.

End layout.

Section board.
Variable g : Minesweeper.t.

Lemma sound_init : sound g (init (Minesweeper.height g) (Minesweeper.width g)).
Proof.
  repeat split; simpl; try set_solver; constructor.
Qed.

Lemma sound_sublist (a : AI) (kb : list Sentence) :
  sound g a → kb `sublist_of` knowledge a → sound g (set_knowledge kb a).
Proof.
  intros (Hh & Hw & Hc & Hm & Hs & Hv & He) Hsub.
  split_and!; try done; [by apply consistent_sublist|]. simpl.
  rewrite Forall_forall in *. intros s Hs'. by eapply He, elem_of_sublist.
Qed.

Lemma sound_mark_cells_mine (a : AI) (s : Sentence) :
  sound g a → s ∈ knowledge a → Sentence.len s = Sentence.count s →
  sound g (mark_cells_mine (elements (Sentence.cells s)) a).
Proof.
  intros (Hh & Hw & Hc & Hm & Hs & Hv & He) Hin Hlen.
  pose proof (consistent_mark_cells_mine a s Hc Hin) as Hc'.
  rewrite Forall_forall in He.
  pose proof (exact_full _ s (He s Hin) Hlen) as Hfull.
  rewrite mark_cells_mine_eq in *.
  split_and!; simpl; try done.
  - rewrite list_to_set_elements_L. set_solver.
  - apply Forall_fmap, Forall_forall. intros s' Hs'.
    apply exact_mark_mines; [|by apply He].
    intros c Hcs. apply Hfull. by apply elem_of_elements.
Qed.

Lemma sound_mark_cells_safe (a : AI) (s : Sentence) :
  sound g a → s ∈ knowledge a → Sentence.count s = 0 →
  sound g (mark_cells_safe (elements (Sentence.cells s)) a).
Proof.
  intros (Hh & Hw & Hc & Hm & Hs & Hv & He) Hin Hz.
  pose proof (consistent_mark_cells_safe a s Hc Hin) as Hc'.
  rewrite Forall_forall in He.
  pose proof (exact_zero _ s (He s Hin) Hz) as Hzero.
  assert (∀ c, c ∈ unmoved a (elements (Sentence.cells s)) →
               c ∉ Minesweeper.mines g) as Hun.
  { intros c [Hcs _]%unmoved_subseteq. apply elem_of_elements in Hcs. set_solver. }
  rewrite mark_cells_safe_eq in *.
  split_and!; simpl; try done.
  - intros c [Hc1|Hc1]%elem_of_union; [set_solver|].
    apply elem_of_list_to_set in Hc1. by apply Hun.
  - apply Forall_fmap, Forall_forall. intros s' Hs'.
    apply exact_mark_safes; [done|by apply He].
Qed.

Lemma sound_mark (a : AI) : sound g a → sound g (mark_mines_safes a).
Proof.
  apply mark_mines_safes_rule'.
  - intros a' s. apply sound_mark_cells_mine.
  - intros a' s. apply sound_mark_cells_safe.
Qed.

Lemma sound_infer (a : AI) : sound g a → sound g (add_inferred a).
Proof.
  intros (Hh & Hw & Hc & Hm & Hs & Hv & He).
  split_and!; try done; [by apply consistent_infer|].
  unfold add_inferred. simpl. apply Forall_app. split; [done|].
  apply Forall_forall. intros s Hin.
  apply elem_of_infer_subsets in Hin as (A & B & HA & HB & Hder & _).
  apply derived_Some in Hder as (Hsub & Hcells & _ & Hcount).
  rewrite Forall_forall in He.
  destruct Hc as [_ Hf]. rewrite Forall_forall in Hf.
  apply (exact_derived _ A B s (known a)); auto. by apply Hf.
Qed.

(** On a board, a sentence inside another never has the larger count, so
    the absolute value in the subset search changes nothing there. *)
Lemma subset_counts_ordered (a : AI) (A B : Sentence) :
  sound g a → A ∈ knowledge a → B ∈ knowledge a →
  Sentence.cells A ⊆ Sentence.cells B →
  Sentence.count A ≤ Sentence.count B.
Proof.
  intros (_ & _ & _ & _ & _ & _ & He) HA HB Hsub.
  rewrite Forall_forall in He.
  rewrite (He A HA), (He B HB).
  assert (Sentence.cells A ∩ Minesweeper.mines g
          ⊆ Sentence.cells B ∩ Minesweeper.mines g) as HAB by set_solver.
  apply subseteq_size in HAB. lia.
Qed.

Lemma sound_executed (a : AI) :
  sound g a → sound g (set_safes (safes a ∖ moves_made a) a).
Proof.
  intros (Hh & Hw & Hc & Hm & Hs & Hv & He).
  split_and!; try done; [by apply consistent_executed|]. simpl. set_solver.
Qed.

(** The state after the move is recorded and the new sentence is added. *)
Lemma sound_new_sentence (cell : Cell) (ai : AI) :
  sound g ai → cell ∉ Minesweeper.mines g →
  sound g (add_new_sentence cell (Minesweeper.nearby_mines g cell)
             (mark_safe cell (set_moves_made (moves_made ai ∪ {[cell]}) ai))).
Proof.
  intros Hsound Hcell.
  pose proof Hsound as (Hh & Hw & Hc & Hm & Hs & Hv & He).
  pose proof (consistent_new_sentence cell (Minesweeper.nearby_mines g cell) ai Hc)
    as Hc'.
  set (a0 := mark_safe cell (set_moves_made (moves_made ai ∪ {[cell]}) ai)) in *.
  assert (moves_made a0 ## Minesweeper.mines g) as Hv0 by (simpl; set_solver).
  assert (Forall (exact (Minesweeper.mines g)) (knowledge a0)) as He0.
  { simpl. apply Forall_fmap. eapply Forall_impl; [exact He|].
    intros s Hes. by apply exact_mark_safe. }
  rewrite (nearby_mines_neighbors g a0) in * by done.
  pose proof (open_mines_count (Minesweeper.mines g) a0 (neighbors a0 cell)
                Hm Hs Hv0 (NoDup_neighbors a0 cell)) as Hcount.
  revert Hc'. unfold add_new_sentence. rewrite filter_neighbors_eq.
  cbn [fst snd app]. intros Hc'.
  case_decide; [|by split_and!]. case_decide; [by split_and!|].
  split_and!; try done. cbn [knowledge set_knowledge].
  apply Forall_app. split; [done|]. apply Forall_singleton.
  unfold exact, Sentence.init. cbn [Sentence.cells Sentence.count].
  exact Hcount.
Qed.

Lemma sound_add_knowledge (cell : Cell) (ai : AI) :
  sound g ai → cell ∉ Minesweeper.mines g →
  ∃ ai', add_knowledge cell (Minesweeper.nearby_mines g cell) ai = Some ai'
         ∧ sound g ai'.
Proof.
  intros Hs Hcell. apply add_knowledge_rule.
  - apply sound_sublist.
  - apply sound_mark.
  - apply sound_infer.
  - apply sound_executed.
  - by apply sound_new_sentence.
Qed.

Lemma sound_run (calls : list (Cell * Z)) (ai : AI) :
  sound g ai → faithful g calls →
  ∃ ai', run calls ai = Some ai' ∧ sound g ai'.
Proof.
  revert ai. induction calls as [|[cell count] calls IH]; intros ai Hs Hf; simpl.
  - by exists ai.
  - apply Forall_cons in Hf as [[Hcell Hcount] Hf]. simpl in Hcell, Hcount.
    subst count.
    destruct (sound_add_knowledge cell ai Hs Hcell) as (ai1 & -> & H1).
    simpl. by apply IH.
Qed.

End board.

(** C5, as the code has it: when every call reveals a cell that is not a
    mine of a board of the engine's size and passes that board's
    [nearby_mines] count, the calls return and every sentence of the
    knowledge base then has [0 ≤ count ≤ |cells|]. *)
Theorem counts_bounded_on_board (g : Minesweeper.t) (calls : list (Cell * Z)) :
  faithful g calls →
  ∃ ai, run calls (init (Minesweeper.height g) (Minesweeper.width g)) = Some ai
        ∧ Forall bounded (knowledge ai).
Proof.
  intros Hf.
  destruct (sound_run g calls _ (sound_init g) Hf)
    as (ai & Hrun & _ & _ & _ & _ & _ & _ & He).
  exists ai. split; [done|].
  eapply Forall_impl; [exact He|]. apply exact_bounded.
Qed.

Lemma counts_bounded_on_board_witness :
  let g := Minesweeper.Build 3 3 {[(2, 2)]} in
  let calls := [((0, 0), 0); ((1, 1), 1)] in
  faithful g calls
  ∧ ∃ ai, run calls (init (Minesweeper.height g) (Minesweeper.width g)) = Some ai
          ∧ Forall bounded (knowledge ai).
Proof.
  intros g calls.
  assert (faithful g calls) as Hf.
  { repeat constructor; simpl; try set_solver; vm_compute; reflexivity. }
  split; [exact Hf|]. exact (counts_bounded_on_board g calls Hf).
Defined.

(** C5 fails on the code: on a 1×3 board, reveal (0,0) with count 0, then
    (0,1), which has two neighbours, with count 2.  The sentence
    [{(0,2)} = 2] stays in the knowledge base: its count exceeds its one
    cell. *)
Lemma count_exceeds_cells :
  ∃ ai, run [((0, 0), 0); ((0, 1), 2)] (init 1 3) = Some ai
        ∧ length (neighbors (init 1 3) (0, 1)) = 2%nat
        ∧ knowledge ai = [Sentence.Build {[(0, 2)]} 2]
        ∧ ¬ Forall bounded (knowledge ai).
Proof.
  exists {| height := 1; width := 3; moves_made := {[(0, 0); (0, 1)]};
            mines := ∅; safes := ∅;
            knowledge := [Sentence.Build {[(0, 2)]} 2] |}.
  split; [by vm_compute|]. split; [by vm_compute|]. split; [done|].
  cbn [knowledge]. intros Hall. apply Forall_cons in Hall as [Hb _].
  unfold bounded, Sentence.len in Hb. cbn [Sentence.cells Sentence.count] in Hb.
  rewrite size_singleton in Hb. lia.
Qed.

End Soundness.

(** * Neighbours, clue counts and single sentences *)
Module CellFacts.
Import MinesweeperAI Notions MoreNotions NeighborFacts.

Lemma elem_of_grid3 (cell c : Cell) :
  c ∈ grid3 cell ↔
  cell.1 - 1 ≤ c.1 ≤ cell.1 + 1 ∧ cell.2 - 1 ≤ c.2 ≤ cell.2 + 1.
Proof.
  destruct cell as [a b], c as [i j]. unfold grid3, range3. cbn.
  rewrite !elem_of_cons, elem_of_nil. split.
  - intros H. repeat destruct H as [H|H]; try done; injection H as -> ->; lia.
  - intros [Hi Hj].
    assert (i = a - 1 ∨ i = a - 1 + 1 ∨ i = a - 1 + 2) as Hi' by lia.
    assert (j = b - 1 ∨ j = b - 1 + 1 ∨ j = b - 1 + 2) as Hj' by lia.
    destruct Hi' as [->|[->| ->]], Hj' as [->|[->| ->]]; tauto.
Qed.

Lemma elem_of_neighbors (ai : AI) (cell c : Cell) :
  c ∈ neighbors ai cell ↔
  c ≠ cell
  ∧ cell.1 - 1 ≤ c.1 ≤ cell.1 + 1 ∧ cell.2 - 1 ≤ c.2 ≤ cell.2 + 1
  ∧ in_grid ai c.
Proof.
  rewrite neighbors_grid, list_elem_of_bind. unfold in_grid. split.
  - intros (ij & Hc & Hij). apply elem_of_grid3 in Hij.
    unfold keep_neighbor in Hc. repeat case_decide; set_solver.
  - intros (Hne & Hi & Hj & Hg). exists c. split; [|by apply elem_of_grid3].
    unfold keep_neighbor. rewrite decide_False, decide_True by done. by left.
Qed.

Lemma length_keep_neighbors (ai : AI) (cell : Cell) (l : list Cell) :
  (length (l ≫= keep_neighbor ai cell) ≤ length (filter (λ c, c ≠ cell) l))%nat.
Proof.
  induction l as [|c l IH]; [done|].
  rewrite bind_cons, length_app. unfold keep_neighbor at 1.
  destruct (decide (c = cell)) as [Hc|Hc].
  - rewrite filter_cons_False by (intros Hn; by apply Hn). simpl. lia.
  - rewrite filter_cons_True by done. case_decide; simpl; lia.
Qed.

(** X1: [neighbors] lists, without repetition, exactly the cells other than
    [cell] that are at most one row and one column away and inside the
    board; there are at most eight. *)
Theorem neighbors_spec (ai : AI) (cell : Cell) :
  NoDup (neighbors ai cell)
  ∧ (length (neighbors ai cell) ≤ 8)%nat
  ∧ ∀ c, c ∈ neighbors ai cell ↔
         c ≠ cell
         ∧ cell.1 - 1 ≤ c.1 ≤ cell.1 + 1 ∧ cell.2 - 1 ≤ c.2 ≤ cell.2 + 1
         ∧ 0 ≤ c.1 < height ai ∧ 0 ≤ c.2 < width ai.
Proof.
  split; [apply NoDup_neighbors|]. split; [|apply elem_of_neighbors].
  rewrite neighbors_grid.
  pose proof (length_keep_neighbors ai cell (grid3 cell)) as Hle.
  assert (cell ∈ grid3 cell) as Hin by (apply elem_of_grid3; lia).
  pose proof (length_filter_lt (λ c, c ≠ cell) (grid3 cell) cell Hin) as Hlt.
  assert (length (grid3 cell) = 9%nat) as H9 by reflexivity.
  rewrite H9 in Hlt. assert (¬ cell ≠ cell) as Hnn by (intros Hn; by apply Hn).
  specialize (Hlt Hnn). lia.
Qed.

(** X2: the board's [nearby_mines] of a cell is the number of its
    neighbours, as the engine of the same size lists them, that are mines;
    it lies between 0 and 8. *)
Theorem nearby_mines_spec (g : Minesweeper.t) (cell : Cell) :
  Minesweeper.nearby_mines g cell
  = Z.of_nat (length (filter (λ c, c ∈ Minesweeper.mines g)
                        (neighbors (init (Minesweeper.height g)
                                         (Minesweeper.width g)) cell)))
  ∧ 0 ≤ Minesweeper.nearby_mines g cell ≤ 8.
Proof.
  set (ai := init (Minesweeper.height g) (Minesweeper.width g)).
  rewrite (nearby_mines_neighbors g ai) by done. split; [done|].
  pose proof (length_filter (λ c, c ∈ Minesweeper.mines g) (neighbors ai cell)) as H1.
  pose proof (length_keep_neighbors ai cell (grid3 cell)) as H2.
  rewrite <- neighbors_grid in H2.
  pose proof (length_filter (λ c, c ≠ cell) (grid3 cell)) as H3.
  assert (cell ∈ grid3 cell) as Hin by (apply elem_of_grid3; lia).
  assert (¬ cell ≠ cell) as Hnn by (intros Hn; by apply Hn).
  pose proof (length_filter_lt (λ c, c ≠ cell) (grid3 cell) cell Hin Hnn) as Hlt.
  assert (length (grid3 cell) = 9%nat) as H9 by reflexivity.
  lia.
Qed.

End CellFacts.

(** * Single sentences *)
Module SentenceSpec.
Import Sentence Notions MoreNotions.

(** X3: a sentence whose count is the number of mines among its cells only
    reports mines as known mines and only non-mines as known safes. *)
Theorem known_cells_sound (M : gset Cell) (s : Sentence) :
  exact M s → known_mines s ⊆ M ∧ known_safes s ## M.
Proof.
  intros Hs. unfold known_mines, known_safes. split.
  - case_decide; [|set_solver]. by apply Soundness.exact_full.
  - case_decide; [|set_solver]. by apply Soundness.exact_zero.
Qed.

Lemma known_cells_sound_witness :
  let M : gset Cell := {[(0, 0); (1, 1)]} in
  let s := Sentence.Build {[(0, 0); (1, 1)]} 2 in
  exact M s ∧ known_mines s ⊆ M ∧ known_safes s ## M.
Proof.
  intros M s.
  assert (exact M s) as Hs by (vm_compute; reflexivity).
  split; [exact Hs|]. exact (known_cells_sound M s Hs).
Defined.

(** X4: a sentence never reports known mines and known safes at once, and
    a sentence without cells reports neither, whatever its count. *)
Theorem known_cells_exclusive (s : Sentence) :
  (known_mines s = ∅ ∨ known_safes s = ∅)
  ∧ (cells s = ∅ → known_mines s = ∅ ∧ known_safes s = ∅).
Proof.
  unfold known_mines, known_safes, len. split.
  - destruct (decide (count s = 0)) as [Hz|Hz]; [|by right].
    case_decide as Hlen; [|by left]. left.
    assert (size (cells s) = 0%nat) as Hsz by lia.
    apply size_empty_iff in Hsz. set_solver.
  - intros ->. by repeat case_decide.
Qed.

(** X5: marking two cells in a sentence gives the same sentence in either
    order: two mines, two safes, or a mine and a different safe cell. *)
Theorem marks_commute (s : Sentence) (a b : Cell) :
  mark_mine a (mark_mine b s) = mark_mine b (mark_mine a s)
  ∧ mark_safe a (mark_safe b s) = mark_safe b (mark_safe a s)
  ∧ (a ≠ b → mark_mine a (mark_safe b s) = mark_safe b (mark_mine a s)).
Proof.
  split; [|split].
  - pose proof (MarkFacts.mark_mines_eq [b; a] s) as H1.
    pose proof (MarkFacts.mark_mines_eq [a; b] s) as H2.
    unfold mark_mines in H1, H2. simpl in H1, H2. rewrite H1, H2.
    apply MarkFacts.sentence_eq; simpl.
    + set_solver.
    + by replace ({[b]} ∪ ({[a]} ∪ ∅) : gset Cell)
        with ({[a]} ∪ ({[b]} ∪ ∅) : gset Cell) by set_solver.
  - unfold mark_safe. simpl. f_equal. set_solver.
  - intros Hne. destruct (decide (a ∈ cells s)) as [Hin|Hin].
    + rewrite (SentenceFacts.mark_mine_elem a s) by done.
      rewrite SentenceFacts.mark_mine_elem by (simpl; set_solver).
      unfold mark_safe. simpl. f_equal. set_solver.
    + rewrite (SentenceFacts.mark_mine_not_elem a s) by done.
      rewrite SentenceFacts.mark_mine_not_elem by (simpl; set_solver). done.
Qed.

(** X6: [mark_mine] leaves the number of cells minus the count unchanged;
    [mark_safe] leaves the count unchanged and removes one cell when the
    cell is a member, none otherwise. *)
Theorem mark_sizes (s : Sentence) (c : Cell) :
  len (mark_mine c s) - count (mark_mine c s) = len s - count s
  ∧ count (mark_safe c s) = count s
  ∧ len (mark_safe c s) = (if decide (c ∈ cells s) then len s - 1 else len s).
Proof.
  assert (c ∈ cells s → Z.of_nat (size (cells s ∖ {[c]})) = Z.of_nat (size (cells s)) - 1)
    as Hsz.
  { intros Hin. assert ({[c]} ⊆ cells s) as Hsub by set_solver.
    rewrite (size_difference _ _ Hsub).
    apply subseteq_size in Hsub. rewrite size_singleton in *. lia. }
  split; [|split].
  - destruct (decide (c ∈ cells s)) as [Hin|Hin].
    + rewrite SentenceFacts.mark_mine_elem by done. unfold len. simpl.
      rewrite Hsz by done. lia.
    + by rewrite SentenceFacts.mark_mine_not_elem.
  - done.
  - unfold len. simpl. case_decide as Hin; [by apply Hsz|].
    by replace (cells s ∖ {[c]}) with (cells s) by set_solver.
Qed.

End SentenceSpec.

(** * The clean-up passes, one by one *)
Module CleanSpec.
Import MinesweeperAI Notions MoreNotions CleanFacts.

Lemma occurrences_cons (v x : Sentence) (l : list Sentence) :
  occurrences v (x :: l)
  = ((if decide (x = v) then 1 else 0) + occurrences v l)%nat.
Proof.
  unfold occurrences. case_decide.
  - by rewrite filter_cons_True.
  - by rewrite filter_cons_False.
Qed.

Lemma occurrences_zero (v : Sentence) (l : list Sentence) :
  occurrences v l = 0%nat ↔ v ∉ l.
Proof.
  induction l as [|x l IH]; [by split; [intros _; apply not_elem_of_nil|]|].
  rewrite occurrences_cons, not_elem_of_cons. case_decide; split.
  - lia.
  - intros [Hne _]. by subst.
  - intros Hz. split; [congruence|]. apply IH. lia.
  - intros [_ Hin]. apply IH in Hin. lia.
Qed.

Lemma NoDup_occurrences (l : list Sentence) :
  NoDup l ↔ ∀ v, (occurrences v l ≤ 1)%nat.
Proof.
  induction l as [|x l IH].
  - split; [intros _ v; unfold occurrences; simpl; lia|intros _; constructor].
  - rewrite NoDup_cons, IH. split.
    + intros [Hx Hl] v. rewrite occurrences_cons. case_decide as Hv.
      * subst. apply occurrences_zero in Hx. lia.
      * specialize (Hl v). lia.
    + intros Hall. split.
      * apply occurrences_zero. specialize (Hall x).
        rewrite occurrences_cons, decide_True in Hall by done. lia.
      * intros v. specialize (Hall v). rewrite occurrences_cons in Hall. lia.
Qed.

Lemma occurrences_list_remove (v w : Sentence) (l l' : list Sentence) :
  list_remove v l = Some l' →
  occurrences w l' = (if decide (w = v) then pred (occurrences v l)
                      else occurrences w l).
Proof.
  revert l'. induction l as [|y l IH]; intros l'; simpl; [done|].
  destruct (decide (y = v)) as [->|Hy].
  - intros [= ->]. rewrite !occurrences_cons.
    destruct (decide (w = v)) as [->|Hw].
    + rewrite decide_True by done. simpl. done.
    + rewrite decide_False by congruence. simpl. done.
  - destruct (list_remove v l) as [l0|]; simpl; [|done].
    intros [= <-]. rewrite !occurrences_cons, (IH l0) by done.
    destruct (decide (w = v)) as [->|Hw].
    + rewrite !decide_False by done. simpl. done.
    + done.
Qed.

Lemma list_remove_None (v : Sentence) (l : list Sentence) :
  list_remove v l = None → v ∉ l.
Proof.
  induction l as [|y l IH]; simpl; [intros _; apply not_elem_of_nil|].
  case_decide; [done|].
  destruct (list_remove v l); simpl; [done|].
  intros _. apply not_elem_of_cons. split; [congruence|by apply IH].
Qed.

Lemma occurrences_try_remove (v w : Sentence) (l : list Sentence) :
  occurrences w (try_remove v l)
  = (if decide (w = v) then pred (occurrences v l) else occurrences w l).
Proof.
  unfold try_remove. destruct (list_remove v l) as [l'|] eqn:E; simpl.
  - by apply occurrences_list_remove.
  - case_decide as Hw; [|done]. subst.
    apply list_remove_None, occurrences_zero in E. by rewrite E.
Qed.

Lemma occurrences_remove_per_match (s w : Sentence) (rest kb : list Sentence) :
  occurrences w (remove_per_match s rest kb)
  = (if decide (w = s) then occurrences s kb - occurrences s rest
     else occurrences w kb)%nat.
Proof.
  unfold remove_per_match. revert kb.
  induction rest as [|x rest IH]; intros kb; simpl.
  - unfold occurrences at 3. simpl. case_decide; [subst|]; lia.
  - rewrite IH. rewrite (occurrences_cons s x rest).
    destruct (decide (s = x)) as [<-|Hx].
    + destruct (decide (w = s)) as [->|Hw].
      * rewrite occurrences_try_remove, !decide_True by done. lia.
      * rewrite occurrences_try_remove, decide_False by done. done.
    + rewrite (decide_False (P := x = s)) by congruence. done.
Qed.

(** The index loop of [clean_identical_at] walks the sentences after
    position [k] of [clone]. *)
Lemma clean_identical_at_drop (clone kb : list Sentence) (k : nat) (s : Sentence) :
  (k < length clone)%nat →
  clean_identical_at clone kb (k, s) = remove_per_match s (drop (S k) clone) kb.
Proof.
  intros Hk. unfold clean_identical_at, remove_per_match. simpl.
  assert (∀ n a kb, (a + n = length clone)%nat →
            fold_left (fun kb i =>
                         match clone !! i with
                         | Some other =>
                             if decide (s = other) then try_remove s kb else kb
                         | None => kb
                         end) (seq a n) kb
            = fold_left (fun kb other =>
                           if decide (s = other) then try_remove s kb else kb)
                        (drop a clone) kb) as Hloop.
  { induction n as [|n IH]; intros a kb0 Han; simpl.
    - by rewrite drop_ge by lia.
    - destruct (lookup_lt_is_Some_2 clone a) as [x Hx]; [lia|].
      rewrite Hx, (drop_S clone x a Hx). simpl. apply IH. lia. }
  apply Hloop. lia.
Qed.

Lemma clean_identical_outer (pre l kb : list Sentence) (v : Sentence) :
  occurrences v
    (fold_left (clean_identical_at (pre ++ l))
               (imap (λ i x, ((length pre + i)%nat, x)) l) kb)
  = (occurrences v kb - removals v l)%nat.
Proof.
  revert pre kb. induction l as [|x l IH]; intros pre kb.
  - simpl. lia.
  - rewrite imap_cons. cbn [fold_left].
    rewrite clean_identical_at_drop by (rewrite length_app; simpl; lia).
    replace (S (length pre + 0)) with (length (pre ++ [x]))
      by (rewrite length_app; simpl; lia).
    rewrite (cons_middle x pre l), app_assoc, drop_app_length.
    assert (imap ((λ i x0, ((length pre + i)%nat, x0)) ∘ S) l
            = imap (λ i x0, ((length (pre ++ [x]) + i)%nat, x0)) l) as ->.
    { apply imap_ext. intros i y _. simpl. f_equal. rewrite length_app. simpl. lia. }
    rewrite IH, occurrences_remove_per_match. simpl.
    destruct (decide (v = x)) as [->|Hv].
    + rewrite decide_True by done. lia.
    + rewrite decide_False by congruence. lia.
Qed.

Lemma removals_double (v : Sentence) (l : list Sentence) :
  (2 * removals v l = occurrences v l * (occurrences v l - 1))%nat.
Proof.
  induction l as [|x l IH]; [done|].
  simpl. rewrite occurrences_cons. case_decide; simpl; [|lia].
  destruct (occurrences v l) as [|n]; simpl in *; nia.
Qed.

Lemma occurrences_clean_identical (ai : AI) (v : Sentence) :
  occurrences v (knowledge (clean_identical_sentences ai))
  = (occurrences v (knowledge ai) - removals v (knowledge ai))%nat.
Proof.
  unfold clean_identical_sentences. simpl.
  apply (clean_identical_outer [] (knowledge ai) (knowledge ai) v).
Qed.

Lemma clean_identical_NoDup (ai : AI) :
  NoDup (knowledge (clean_identical_sentences ai)).
Proof.
  apply NoDup_occurrences. intros v. rewrite occurrences_clean_identical.
  pose proof (removals_double v (knowledge ai)) as Hd.
  destruct (occurrences v (knowledge ai)) as [|[|[|n]]]; simpl in *; nia.
Qed.

End CleanSpec.

(** * What each pass of [add_knowledge] guarantees *)
Module PassSpec.
Import MinesweeperAI Notions MoreNotions CleanFacts MarkFacts Rules CleanSpec.

(** X7: [clean_empty_sentences] never raises; it keeps exactly the sentences
    that have a cell, in their order, and changes nothing else. *)
Theorem clean_empty_sentences_spec (ai : AI) :
  ∃ ai', clean_empty_sentences ai = Some ai'
         ∧ knowledge ai' = filter (λ s, Sentence.cells s ≠ ∅) (knowledge ai)
         ∧ moves_made ai' = moves_made ai ∧ mines ai' = mines ai
         ∧ safes ai' = safes ai
         ∧ height ai' = height ai ∧ width ai' = width ai.
Proof.
  rewrite clean_empty_sentences_eq. eexists. split; [done|]. by split_and!.
Qed.

(** X8: [clean_identical_sentences] only deletes sentences, keeping the
    order of the rest, and leaves no two equal sentences.  A sentence that
    occurred [n] times occurs [n − n(n−1)/2] times afterwards: once when it
    occurred once or twice, not at all when it occurred three times or
    more. *)
Theorem clean_identical_sentences_spec (ai : AI) :
  knowledge (clean_identical_sentences ai) `sublist_of` knowledge ai
  ∧ NoDup (knowledge (clean_identical_sentences ai))
  ∧ ∀ v, occurrences v (knowledge (clean_identical_sentences ai))
         = (occurrences v (knowledge ai)
            - occurrences v (knowledge ai) * (occurrences v (knowledge ai) - 1) / 2)%nat.
Proof.
  split; [apply clean_identical_sentences_sublist|].
  split; [apply clean_identical_NoDup|].
  intros v. rewrite occurrences_clean_identical.
  pose proof (removals_double v (knowledge ai)) as Hd.
  rewrite <- Hd. f_equal. by rewrite Nat.mul_comm, Nat.div_mul.
Qed.

(** X9: [clean_exceuted_safes] never raises; it removes from [safes]
    exactly the cells that are in [moves_made] and changes nothing else. *)
Theorem clean_exceuted_safes_spec (ai : AI) :
  ∃ ai', clean_exceuted_safes ai = Some ai'
         ∧ (∀ c, c ∈ safes ai' ↔ c ∈ safes ai ∧ c ∉ moves_made ai)
         ∧ knowledge ai' = knowledge ai
         ∧ moves_made ai' = moves_made ai ∧ mines ai' = mines ai
         ∧ height ai' = height ai ∧ width ai' = width ai.
Proof.
  rewrite clean_exceuted_safes_eq. eexists. split; [done|].
  split_and!; try done. intros c. simpl. set_solver.
Qed.

Lemma mentioned_fmap (f : Sentence → Sentence) (kb : list Sentence) (c : Cell) :
  (∀ s, Sentence.cells (f s) ⊆ Sentence.cells s) →
  mentioned (f <$> kb) c → mentioned kb c.
Proof.
  intros Hf (s' & Hs' & Hc). apply list_elem_of_fmap in Hs' as (s & -> & Hs).
  exists s. split; [done|]. by apply Hf.
Qed.

Lemma marked_from_mine (ai a : AI) (s : Sentence) :
  marked_from ai a → s ∈ knowledge a →
  marked_from ai (mark_cells_mine (elements (Sentence.cells s)) a).
Proof.
  intros (Hh & Hw & Hv & Hl & Hm & Hs & Hm' & Hs' & Hk) Hin.
  rewrite mark_cells_mine_eq. unfold marked_from. simpl.
  rewrite length_fmap, list_to_set_elements_L.
  split_and!; try done; [set_solver| |].
  - intros c [Hc|Hc]%elem_of_union; [by apply Hm'|].
    right. apply Hk. by exists s.
  - intros c Hc. apply Hk. revert Hc. apply mentioned_fmap.
    intros s'. rewrite mark_mines_cells. set_solver.
Qed.

Lemma marked_from_safe (ai a : AI) (s : Sentence) :
  marked_from ai a → s ∈ knowledge a →
  marked_from ai (mark_cells_safe (elements (Sentence.cells s)) a).
Proof.
  intros (Hh & Hw & Hv & Hl & Hm & Hs & Hm' & Hs' & Hk) Hin.
  rewrite mark_cells_safe_eq. unfold marked_from. simpl.
  rewrite length_fmap.
  split_and!; try done; [set_solver| |].
  - intros c [Hc|Hc]%elem_of_union; [by apply Hs'|].
    right. apply Hk. exists s. split; [done|].
    apply elem_of_list_to_set, unmoved_subseteq in Hc as [Hc _].
    by apply elem_of_elements.
  - intros c Hc. apply Hk. revert Hc. apply mentioned_fmap.
    intros s'. rewrite mark_safes_cells. set_solver.
Qed.

(** X10: [mark_mines_safes] keeps the board size, the moves made and the
    number of sentences; it never unmarks a mine or a safe cell, every cell
    it newly marks was in a sentence, and the sentences mention no cell they
    did not mention before. *)
Theorem mark_mines_safes_frame (ai : AI) :
  height (mark_mines_safes ai) = height ai
  ∧ width (mark_mines_safes ai) = width ai
  ∧ moves_made (mark_mines_safes ai) = moves_made ai
  ∧ length (knowledge (mark_mines_safes ai)) = length (knowledge ai)
  ∧ mines ai ⊆ mines (mark_mines_safes ai)
  ∧ safes ai ⊆ safes (mark_mines_safes ai)
  ∧ (∀ c, c ∈ mines (mark_mines_safes ai) →
          c ∈ mines ai ∨ ∃ s, s ∈ knowledge ai ∧ c ∈ Sentence.cells s)
  ∧ (∀ c, c ∈ safes (mark_mines_safes ai) →
          c ∈ safes ai ∨ ∃ s, s ∈ knowledge ai ∧ c ∈ Sentence.cells s)
  ∧ (∀ c s', s' ∈ knowledge (mark_mines_safes ai) → c ∈ Sentence.cells s' →
             ∃ s, s ∈ knowledge ai ∧ c ∈ Sentence.cells s).
Proof.
  assert (marked_from ai (mark_mines_safes ai))
    as (Hh & Hw & Hv & Hl & Hm & Hs & Hm' & Hs' & Hk).
  { apply (mark_mines_safes_rule' (marked_from ai)).
    - intros a s Ha Hin _. by apply marked_from_mine.
    - intros a s Ha Hin _. by apply marked_from_safe.
    - unfold marked_from. split_and!; try done; eauto. }
  split_and!; try done. intros c s' Hin Hc. apply Hk. by exists s'.
Qed.

(** X11: after [add_knowledge] returns, whatever the state and arguments,
    the knowledge base has no sentence without cells and no two equal
    sentences. *)
Theorem add_knowledge_leaves_tidy_knowledge (cell : Cell) (count : Z) (ai : AI) :
  ∃ ai', add_knowledge cell count ai = Some ai'
         ∧ Forall (λ s, Sentence.cells s ≠ ∅) (knowledge ai')
         ∧ NoDup (knowledge ai').
Proof.
  unfold add_knowledge.
  destruct (before_inference cell count ai) as [a1|] eqn:E1.
  - simpl. unfold mark_and_clean. rewrite clean_empty_sentences_eq. simpl.
    rewrite clean_exceuted_safes_eq. eexists. split; [done|].
    set (a2 := set_knowledge (filter nonempty _) (mark_mines_safes (add_inferred a1))).
    change (knowledge (set_safes _ (clean_identical_sentences a2)))
      with (knowledge (clean_identical_sentences a2)).
    split; [|apply (clean_identical_NoDup a2)].
    apply Forall_forall. intros s Hs.
    pose proof (elem_of_sublist _ _ _ Hs (clean_identical_sentences_sublist a2))
      as Hs2.
    subst a2. simpl in Hs2. by apply list_elem_of_filter in Hs2 as [? _].
  - unfold before_inference in E1.
    destruct (mark_and_clean_returns
                (add_new_sentence cell count
                   (mark_safe cell (set_moves_made (moves_made ai ∪ {[cell]}) ai))))
      as [a1 Ha1].
    congruence.
Qed.

(** X12: [add_knowledge] keeps the board size and never removes a cell from
    [mines]. *)
Theorem add_knowledge_keeps_mines (cell : Cell) (count : Z) (ai : AI) :
  ∃ ai', add_knowledge cell count ai = Some ai'
         ∧ height ai' = height ai ∧ width ai' = width ai
         ∧ mines ai ⊆ mines ai'.
Proof.
  apply (add_knowledge_rule
           (λ a, height a = height ai ∧ width a = width ai ∧ mines ai ⊆ mines a)).
  - by intros a kb Ha _.
  - apply mark_mines_safes_rule'.
    + intros a s (Hh & Hw & Hm) _ _. rewrite mark_cells_mine_eq. simpl.
      split_and!; try done. set_solver.
    + intros a s (Hh & Hw & Hm) _ _. rewrite mark_cells_safe_eq. by simpl.
  - by intros a Ha.
  - by intros a Ha.
  - unfold add_new_sentence. rewrite filter_neighbors_eq. simpl.
    repeat case_decide; by split_and!.
Qed.

End PassSpec.

(** * States reached from a fresh engine *)
Module ReachSpec.
Import MinesweeperAI Notions MoreNotions CleanFacts MarkFacts InferFacts Rules
       Invariants CellFacts.

(** X13: in every state reached from a fresh engine, no sentence mentions a
    cell that is a move made, a known safe or a known mine. *)
Theorem reached_sentences_open (h w : Z) (calls : list (Cell * Z)) :
  ∃ ai, run calls (init h w) = Some ai
        ∧ ∀ s c, s ∈ knowledge ai → c ∈ Sentence.cells s →
                 (c ∉ moves_made ai) ∧ (c ∉ safes ai) ∧ (c ∉ mines ai).
Proof.
  destruct (consistent_run calls (init h w) (consistent_init h w))
    as (ai & Hrun & _ & Hf).
  exists ai. split; [done|]. intros s c Hs Hc.
  rewrite Forall_forall in Hf. specialize (Hf s Hs).
  unfold fresh, known in Hf. set_solver.
Qed.

Lemma gridded_sublist (a : AI) (kb : list Sentence) :
  gridded a → kb `sublist_of` knowledge a → gridded (set_knowledge kb a).
Proof.
  intros (Hm & Hs & Hk) Hsub. split_and!; try done. simpl.
  rewrite Forall_forall in *. intros s Hin. by eapply Hk, elem_of_sublist.
Qed.

Lemma gridded_mark_cells_mine (a : AI) (s : Sentence) :
  gridded a → s ∈ knowledge a →
  gridded (mark_cells_mine (elements (Sentence.cells s)) a).
Proof.
  intros (Hm & Hs & Hk) Hin. rewrite mark_cells_mine_eq.
  rewrite Forall_forall in Hk. unfold gridded, in_grid in *. simpl.
  rewrite list_to_set_elements_L. split_and!; try done.
  - intros c [Hc|Hc]%elem_of_union; [by apply Hm|by apply (Hk s)].
  - apply Forall_fmap, Forall_forall. intros s' Hs' c Hc. simpl in Hc.
    rewrite mark_mines_cells in Hc. apply (Hk s' Hs'). set_solver.
Qed.

Lemma gridded_mark_cells_safe (a : AI) (s : Sentence) :
  gridded a → s ∈ knowledge a →
  gridded (mark_cells_safe (elements (Sentence.cells s)) a).
Proof.
  intros (Hm & Hs & Hk) Hin. rewrite mark_cells_safe_eq.
  rewrite Forall_forall in Hk. unfold gridded, in_grid in *. simpl.
  split_and!; try done.
  - intros c [Hc|Hc]%elem_of_union; [by apply Hs|]. apply (Hk s Hin).
    apply elem_of_list_to_set, unmoved_subseteq in Hc as [Hc _].
    by apply elem_of_elements.
  - apply Forall_fmap, Forall_forall. intros s' Hs' c Hc. simpl in Hc.
    rewrite mark_safes_cells in Hc. apply (Hk s' Hs'). set_solver.
Qed.

Lemma gridded_infer (a : AI) : gridded a → gridded (add_inferred a).
Proof.
  intros (Hm & Hs & Hk). split_and!; try done. unfold add_inferred. simpl.
  apply Forall_app. split; [done|]. apply Forall_forall. intros s Hin c Hc.
  apply elem_of_infer_subsets in Hin as (A & B & _ & HB & Hder & _).
  apply derived_Some in Hder as (_ & Hcells & _).
  rewrite Forall_forall in Hk. apply (Hk B HB). rewrite Hcells in Hc. set_solver.
Qed.

Lemma gridded_new_sentence (cell : Cell) (count : Z) (ai : AI) :
  gridded ai →
  gridded (add_new_sentence cell count
             (mark_safe cell (set_moves_made (moves_made ai ∪ {[cell]}) ai))).
Proof.
  intros (Hm & Hs & Hk).
  set (a0 := mark_safe cell _).
  assert (gridded a0) as (Hm0 & Hs0 & Hk0).
  { split_and!; try done. simpl. apply Forall_fmap.
    eapply Forall_impl; [exact Hk|]. intros s Hin c Hc. simpl in Hc.
    apply Hin. set_solver. }
  unfold add_new_sentence. rewrite filter_neighbors_eq. simpl.
  case_decide; [|by split_and!]. case_decide; [by split_and!|].
  split_and!; try done. simpl. apply Forall_app. split; [done|].
  apply Forall_singleton. intros c Hc. simpl in Hc.
  apply elem_of_list_to_set, list_elem_of_filter in Hc as [_ Hc].
  by apply elem_of_neighbors in Hc as (_ & _ & _ & Hg).
Qed.

Lemma gridded_add_knowledge (h w : Z) (cell : Cell) (count : Z) (ai : AI) :
  height ai = h ∧ width ai = w ∧ gridded ai →
  ∃ ai', add_knowledge cell count ai = Some ai'
         ∧ height ai' = h ∧ width ai' = w ∧ gridded ai'.
Proof.
  intros (Hh & Hw & Hg).
  apply (add_knowledge_rule (λ a, height a = h ∧ width a = w ∧ gridded a)).
  - intros a kb (? & ? & ?) Hsub. split_and!; try done. by apply gridded_sublist.
  - apply mark_mines_safes_rule'.
    + intros a s (? & ? & ?) Hin _. split_and!.
      * by rewrite mark_cells_mine_eq.
      * by rewrite mark_cells_mine_eq.
      * by apply gridded_mark_cells_mine.
    + intros a s (? & ? & ?) Hin _. split_and!.
      * by rewrite mark_cells_safe_eq.
      * by rewrite mark_cells_safe_eq.
      * by apply gridded_mark_cells_safe.
  - intros a (? & ? & ?). split_and!; try done. by apply gridded_infer.
  - intros a (? & ? & Hm' & Hs' & Hk'). split_and!; try done.
    unfold gridded. split_and!; try done.
    intros c Hc. apply Hs'. simpl in Hc. set_solver.
  - pose proof (gridded_new_sentence cell count ai Hg) as Hnew.
    split_and!; [| |exact Hnew].
    + unfold add_new_sentence. rewrite filter_neighbors_eq. simpl.
      by repeat case_decide.
    + unfold add_new_sentence. rewrite filter_neighbors_eq. simpl.
      by repeat case_decide.
Qed.

(** X14: in every state reached from a fresh engine of height [h] and width
    [w], the size is unchanged and every known mine, every known safe and
    every cell of a sentence lies inside the board, whatever cells the calls
    named. *)
Theorem reached_cells_in_grid (h w : Z) (calls : list (Cell * Z)) :
  ∃ ai, run calls (init h w) = Some ai
        ∧ height ai = h ∧ width ai = w
        ∧ (∀ c, c ∈ mines ai ∨ c ∈ safes ai ∨ mentioned (knowledge ai) c →
                0 ≤ c.1 < h ∧ 0 ≤ c.2 < w).
Proof.
  assert (∀ ai, height ai = h ∧ width ai = w ∧ gridded ai →
            ∃ ai', run calls ai = Some ai'
                   ∧ height ai' = h ∧ width ai' = w ∧ gridded ai') as Hrun.
  { induction calls as [|[cell count] calls IH]; intros ai Hai; simpl.
    - by exists ai.
    - destruct (gridded_add_knowledge h w cell count ai Hai) as (a1 & -> & H1).
      simpl. by apply IH. }
  destruct (Hrun (init h w)) as (ai & Hr & Hh & Hw & Hm & Hs & Hk).
  { split_and!; try done; unfold gridded; simpl;
      split_and!; try set_solver; constructor. }
  exists ai. split_and!; try done.
  unfold in_grid in *. rewrite Hh, Hw in *.
  intros c [Hc|[Hc|(s & Hin & Hc)]]; [by apply Hm|by apply Hs|].
  rewrite Forall_forall in Hk. by apply (Hk s Hin).
Qed.

End ReachSpec.

(** * The random move, in full *)
Module RandomMoveSpec.
Import MinesweeperAI Notions MoreNotions MoveFacts.

Lemma find_first {A : Type} (f : A → bool) (l : list A) (x : A) :
  List.find f l = Some x →
  ∃ p, l !! p = Some x ∧ f x = true
       ∧ ∀ k y, (k < p)%nat → l !! k = Some y → f y = false.
Proof.
  induction l as [|a l IH]; simpl; [done|].
  destruct (f a) eqn:Ha.
  - intros [= <-]. exists 0%nat. split_and!; [done|done|]. intros k y Hk. lia.
  - intros Hfind. destruct (IH Hfind) as (p & Hp & Hx & Hbefore).
    exists (S p). split_and!; [done|done|].
    intros [|k] y Hk Hy; simpl in Hy; [by injection Hy as <-|].
    apply (Hbefore k); [lia|done].
Qed.

Lemma lookup_range (n : Z) (k : nat) :
  (k < Z.to_nat n)%nat → range n !! k = Some (Z.of_nat k).
Proof.
  intros Hk. unfold range. rewrite list_lookup_fmap, lookup_seq_lt by done. done.
Qed.

Lemma lookup_range_inv (n : Z) (k : nat) (x : Z) :
  range n !! k = Some x → x = Z.of_nat k ∧ 0 ≤ x < n.
Proof.
  unfold range. rewrite list_lookup_fmap. intros Hx.
  destruct (seq 0 (Z.to_nat n) !! k) as [m|] eqn:Hm; [|done].
  apply lookup_seq in Hm as [-> Hlt]. simpl in Hx. injection Hx as <-. lia.
Qed.

Lemma free_or_taken (ai : AI) (c : Cell) :
  bool_decide ((c ∉ mines ai) ∧ (c ∉ moves_made ai)) = false ↔ taken ai c.
Proof.
  rewrite bool_decide_eq_false. unfold taken. split.
  - intros Hn. destruct (decide (c ∈ mines ai)); [by left|].
    destruct (decide (c ∈ moves_made ai)); [by right|]. by destruct Hn.
  - intros [H|H] [? ?]; done.
Qed.

Lemma scan_row_first (ai : AI) (row bound : Z) (c : Cell) :
  scan_row ai row bound = Some c →
  ∀ j, 0 ≤ j < c.2 → taken ai (row, j).
Proof.
  unfold scan_row. intros Hfind j Hj.
  apply find_first in Hfind as (p & Hp & _ & Hbefore).
  rewrite list_lookup_fmap in Hp.
  destruct (range bound !! p) as [x|] eqn:Hx; [|done].
  simpl in Hp. injection Hp as <-. apply lookup_range_inv in Hx as [-> Hb].
  simpl in Hj. apply free_or_taken.
  apply (Hbefore (Z.to_nat j)); [lia|].
  rewrite list_lookup_fmap, lookup_range by lia. simpl. do 2 f_equal. lia.
Qed.

Lemma scan_row_None (ai : AI) (row bound : Z) :
  scan_row ai row bound = None ↔ ∀ j, 0 ≤ j < bound → taken ai (row, j).
Proof.
  unfold scan_row. split.
  - intros Hnone j Hj. apply free_or_taken.
    apply (find_none _ _ Hnone (row, j)).
    apply list_elem_of_In, list_elem_of_fmap. exists j. split; [done|].
    by apply elem_of_range.
  - intros Hall. destruct (List.find _ _) as [c|] eqn:E; [|done].
    apply (scan_row_Some ai row bound c) in E as (Hr & Hj & Hm & Hv).
    destruct c as [i j]. simpl in *. subst i.
    destruct (Hall j Hj) as [?|?]; done.
Qed.

Lemma scan_rows_first (ai : AI) (d : draws) (rows : list Z) (c : Cell) :
  scan_rows ai d rows = Some (Some c) →
  ∃ p, rows !! p = Some c.1
       ∧ scan_row ai c.1 (col_draw d c.1) = Some c
       ∧ ∀ k r, (k < p)%nat → rows !! k = Some r →
                scan_row ai r (col_draw d r) = None.
Proof.
  induction rows as [|row rows IH]; simpl; [done|].
  unfold randrange. case_decide; [|done]. simpl.
  destruct (scan_row ai row (col_draw d row)) as [c'|] eqn:E.
  - intros [= ->]. pose proof (scan_row_Some _ _ _ _ E) as (Hr & _).
    exists 0%nat. rewrite Hr. split_and!; [done|done|]. intros k r Hk. lia.
  - intros Hrec. destruct (IH Hrec) as (p & Hp & Hc & Hbefore).
    exists (S p). split_and!; [done|done|].
    intros [|k] r Hk Hr; simpl in Hr; [by injection Hr as <-|].
    apply (Hbefore k); [lia|done].
Qed.

Lemma scan_rows_None (ai : AI) (d : draws) (rows : list Z) :
  0 < width ai →
  (scan_rows ai d rows = Some None ↔
   ∀ r, r ∈ rows → scan_row ai r (col_draw d r) = None).
Proof.
  intros Hw. induction rows as [|row rows IH]; simpl.
  - split; [intros _ r Hr; by apply elem_of_nil in Hr|done].
  - unfold randrange. rewrite decide_True by done. simpl.
    destruct (scan_row ai row (col_draw d row)) as [c'|] eqn:E.
    + split; [done|]. intros Hall. rewrite Hall in E by (by left). done.
    + rewrite IH. split.
      * intros Hall r [->|Hr]%elem_of_cons; [done|by apply Hall].
      * intros Hall r Hr. apply Hall. by right.
Qed.

(** X15: a cell [make_random_move] returns is not a known mine and not a
    move made, lies within the drawn bounds, and is the first such cell: all
    cells before it, row by row within the bounds drawn, are known mines or
    moves made. *)
Theorem make_random_move_returns_first_free (ai : AI) (d : draws) (c : Cell) :
  make_random_move ai d = Some (Some c) →
  (c ∉ mines ai) ∧ (c ∉ moves_made ai)
  ∧ 0 ≤ c.1 < row_draw d ∧ 0 ≤ c.2 < col_draw d c.1
  ∧ ∀ i j, (0 ≤ i < c.1 ∧ 0 ≤ j < col_draw d i) ∨ (i = c.1 ∧ 0 ≤ j < c.2) →
           taken ai (i, j).
Proof.
  unfold make_random_move, randrange. case_decide; [|done]. simpl. intros Hret.
  apply scan_rows_first in Hret as (p & Hp & Hrow & Hbefore).
  pose proof (scan_row_Some _ _ _ _ Hrow) as (_ & Hj & Hm & Hv).
  apply lookup_range_inv in Hp as [Hp Hi].
  split_and!; try done; try lia.
  intros i j [[Hi' Hj']|[-> Hj']].
  - assert (scan_row ai i (col_draw d i) = None) as Hnone.
    { apply (Hbefore (Z.to_nat i)); [lia|].
      rewrite lookup_range by lia. f_equal. lia. }
    by apply (proj1 (scan_row_None ai i (col_draw d i)) Hnone).
  - by apply (scan_row_first ai c.1 (col_draw d c.1) c).
Qed.

Lemma make_random_move_returns_first_free_witness :
  let ai := set_moves_made {[(0, 0)]} (init 3 3) in
  let d := Draws 2 (λ _, 2) in
  make_random_move ai d = Some (Some (0, 1))
  ∧ ((0, 1) ∉ mines ai) ∧ ((0, 1) ∉ moves_made ai)
  ∧ 0 ≤ 0 < row_draw d ∧ 0 ≤ 1 < col_draw d 0
  ∧ ∀ i j, (0 ≤ i < 0 ∧ 0 ≤ j < col_draw d i) ∨ (i = 0 ∧ 0 ≤ j < 1) →
           taken ai (i, j).
Proof.
  intros ai d.
  assert (make_random_move ai d = Some (Some (0, 1))) as Hret by (by vm_compute).
  split; [exact Hret|].
  exact (make_random_move_returns_first_free ai d (0, 1) Hret).
Defined.

(** X16: on a board with positive height and width, [make_random_move]
    returns [None] exactly when every cell within the drawn bounds is a
    known mine or a move made. *)
Theorem make_random_move_none_iff (ai : AI) (d : draws) :
  0 < height ai → 0 < width ai →
  (make_random_move ai d = Some None ↔
   ∀ i j, 0 ≤ i < row_draw d → 0 ≤ j < col_draw d i → taken ai (i, j)).
Proof.
  intros Hh Hw. unfold make_random_move, randrange.
  rewrite decide_True by done. simpl. rewrite scan_rows_None by done. split.
  - intros Hall i j Hi Hj.
    apply (proj1 (scan_row_None ai i (col_draw d i))); [|done].
    apply Hall. by apply elem_of_range.
  - intros Hall r Hr. apply elem_of_range in Hr.
    apply scan_row_None. intros j Hj. by apply Hall.
Qed.

Lemma make_random_move_none_iff_witness :
  let ai := set_moves_made {[(0, 0)]} (init 2 2) in
  let d := Draws 1 (λ _, 1) in
  make_random_move ai d = Some None ↔
  ∀ i j, 0 ≤ i < row_draw d → 0 ≤ j < col_draw d i → taken ai (i, j).
Proof.
  intros ai d. apply (make_random_move_none_iff ai d); simpl; lia.
Defined.

(** X17: [make_random_move] raises exactly when the height is not positive,
    or the width is not positive and the row bound drawn is positive. *)
Theorem make_random_move_raises_iff (ai : AI) (d : draws) :
  make_random_move ai d = None ↔
  height ai ≤ 0 ∨ (0 < row_draw d ∧ width ai ≤ 0).
Proof.
  unfold make_random_move, randrange.
  destruct (decide (0 < height ai)) as [Hh|Hh]; simpl; [|split; [lia|done]].
  destruct (decide (0 < width ai)) as [Hw|Hw].
  - destruct (scan_rows_returns ai d (range (row_draw d)) Hw) as [r ->].
    split; [done|lia].
  - destruct (decide (0 < row_draw d)) as [Hr|Hr].
    + assert (range (row_draw d) = 0 :: (Z.of_nat <$> seq 1 (Z.to_nat (row_draw d) - 1)))
        as ->.
      { unfold range. destruct (Z.to_nat (row_draw d)) as [|n] eqn:En; [lia|].
        simpl. by rewrite Nat.sub_0_r. }
      simpl. unfold randrange. rewrite decide_False by done. simpl.
      split; [lia|done].
    + assert (range (row_draw d) = []) as ->.
      { unfold range. by replace (Z.to_nat (row_draw d)) with 0%nat by lia. }
      simpl. split; [done|lia].
Qed.

End RandomMoveSpec.

(** * Play on a board, and what the subset search queues *)
Module PlaySpec.
Import MinesweeperAI Notions MoreNotions MarkFacts InferFacts MoveFacts Soundness.

(** X18: when every call reveals a non-mine of a board of the engine's size
    with that board's [nearby_mines] count, every cell the engine holds as a
    mine is a mine of the board, no cell it holds as safe is one, and
    [make_safe_move] never returns a mine. *)
Theorem play_marks_sound (g : Minesweeper.t) (calls : list (Cell * Z)) :
  faithful g calls →
  ∃ ai, run calls (init (Minesweeper.height g) (Minesweeper.width g)) = Some ai
        ∧ mines ai ⊆ Minesweeper.mines g
        ∧ safes ai ## Minesweeper.mines g
        ∧ ∀ c, make_safe_move ai = Some c → c ∉ Minesweeper.mines g.
Proof.
  intros Hf.
  destruct (sound_run g calls _ (sound_init g) Hf)
    as (ai & Hrun & _ & _ & _ & Hm & Hs & _ & _).
  exists ai. split_and!; try done.
  intros c Hc. apply make_safe_move_Some in Hc as [Hin _]. set_solver.
Qed.

Lemma play_marks_sound_witness :
  let g := Minesweeper.Build 2 3 {[(0, 2)]} in
  let calls := [((0, 0), 0); ((0, 1), 1); ((1, 1), 1)] in
  faithful g calls
  ∧ ∃ ai, run calls (init (Minesweeper.height g) (Minesweeper.width g)) = Some ai
          ∧ mines ai ⊆ Minesweeper.mines g
          ∧ safes ai ## Minesweeper.mines g
          ∧ ∀ c, make_safe_move ai = Some c → c ∉ Minesweeper.mines g.
Proof.
  intros g calls.
  assert (faithful g calls) as Hf.
  { repeat constructor; simpl; try set_solver; vm_compute; reflexivity. }
  split; [exact Hf|]. exact (play_marks_sound g calls Hf).
Defined.

(** X19: under the same play, the count of every sentence of the knowledge
    base is the number of its cells that are mines of the board. *)
Theorem play_sentences_exact (g : Minesweeper.t) (calls : list (Cell * Z)) :
  faithful g calls →
  ∃ ai, run calls (init (Minesweeper.height g) (Minesweeper.width g)) = Some ai
        ∧ ∀ s, s ∈ knowledge ai →
               Sentence.count s
               = Z.of_nat (size (Sentence.cells s ∩ Minesweeper.mines g)).
Proof.
  intros Hf.
  destruct (sound_run g calls _ (sound_init g) Hf)
    as (ai & Hrun & _ & _ & _ & _ & _ & _ & He).
  exists ai. split; [done|]. intros s Hs.
  rewrite Forall_forall in He. by apply He.
Qed.

Lemma play_sentences_exact_witness :
  let g := Minesweeper.Build 3 3 {[(2, 2)]} in
  let calls := [((0, 0), 0); ((1, 1), 1)] in
  faithful g calls
  ∧ ∃ ai, run calls (init (Minesweeper.height g) (Minesweeper.width g)) = Some ai
          ∧ ∀ s, s ∈ knowledge ai →
                 Sentence.count s
                 = Z.of_nat (size (Sentence.cells s ∩ Minesweeper.mines g)).
Proof.
  intros g calls.
  assert (faithful g calls) as Hf.
  { repeat constructor; simpl; try set_solver; vm_compute; reflexivity. }
  split; [exact Hf|]. exact (play_sentences_exact g calls Hf).
Defined.

(** X20: every sentence the subset search queues has a cell, a count that is
    not negative, is not yet in the knowledge base, mentions no move made,
    known safe or known mine, and comes from two sentences of the knowledge
    base, the cells of the first among those of the second: its cells are
    cells of the second outside the first and its count is the absolute
    difference of their counts. *)
Theorem queued_sentences_spec (ai : AI) (s : Sentence) :
  s ∈ infer_subsets ai →
  Sentence.cells s ≠ ∅ ∧ 0 ≤ Sentence.count s ∧ (s ∉ knowledge ai)
  ∧ Sentence.cells s ## moves_made ai ∪ safes ai ∪ mines ai
  ∧ ∃ A B, A ∈ knowledge ai ∧ B ∈ knowledge ai
           ∧ Sentence.cells A ⊆ Sentence.cells B
           ∧ Sentence.cells s ⊆ Sentence.cells B ∖ Sentence.cells A
           ∧ Sentence.count s = Z.abs (Sentence.count B - Sentence.count A).
Proof.
  intros Hs. apply elem_of_infer_subsets in Hs as (A & B & HA & HB & Hder & Hnew).
  apply derived_Some in Hder as (Hsub & Hcells & Hne & Hcount).
  unfold known in Hcells. split_and!; try done.
  - lia.
  - rewrite Hcells. set_solver.
  - exists A, B. split_and!; try done. rewrite Hcells. set_solver.
Qed.

Lemma queued_sentences_spec_witness :
  let A := Sentence.Build {[(0, 0); (0, 1)]} 1 in
  let B := Sentence.Build {[(0, 0); (0, 1); (0, 2)]} 1 in
  let ai := set_knowledge [A; B] (init 1 4) in
  let s := Sentence.Build {[(0, 2)]} 0 in
  s ∈ infer_subsets ai
  ∧ Sentence.cells s ≠ ∅ ∧ 0 ≤ Sentence.count s ∧ (s ∉ knowledge ai)
  ∧ Sentence.cells s ## moves_made ai ∪ safes ai ∪ mines ai
  ∧ ∃ A B, A ∈ knowledge ai ∧ B ∈ knowledge ai
           ∧ Sentence.cells A ⊆ Sentence.cells B
           ∧ Sentence.cells s ⊆ Sentence.cells B ∖ Sentence.cells A
           ∧ Sentence.count s = Z.abs (Sentence.count B - Sentence.count A).
Proof.
  intros A B ai s.
  assert (infer_subsets ai = [s]) as Heq by (by vm_compute).
  assert (s ∈ infer_subsets ai) as Hs by (rewrite Heq; by left).
  split; [exact Hs|]. exact (queued_sentences_spec ai s Hs).
Defined.

(** X21: when no sentence of the knowledge base has its cells strictly
    inside those of another, the subset search queues nothing. *)
Theorem no_strict_subset_no_inference (ai : AI) :
  (∀ A B, A ∈ knowledge ai → B ∈ knowledge ai →
          Sentence.cells A ⊆ Sentence.cells B →
          Sentence.cells B ⊆ Sentence.cells A) →
  infer_subsets ai = [].
Proof.
  intros Hno. destruct (infer_subsets ai) as [|s l] eqn:E; [done|].
  assert (s ∈ infer_subsets ai) as Hs by (rewrite E; by left).
  apply elem_of_infer_subsets in Hs as (A & B & HA & HB & Hder & _).
  apply derived_Some in Hder as (Hsub & Hcells & Hne & _).
  pose proof (Hno A B HA HB Hsub) as Hback.
  exfalso. apply Hne. rewrite Hcells. set_solver.
Qed.

Lemma no_strict_subset_no_inference_witness :
  let A := Sentence.Build {[(0, 0); (0, 1)]} 1 in
  let B := Sentence.Build {[(0, 1); (0, 2)]} 1 in
  let ai := set_knowledge [A; B] (init 1 4) in
  (∀ A B, A ∈ knowledge ai → B ∈ knowledge ai →
          Sentence.cells A ⊆ Sentence.cells B →
          Sentence.cells B ⊆ Sentence.cells A)
  ∧ infer_subsets ai = [].
Proof.
  intros A B ai.
  assert (∀ A B, A ∈ knowledge ai → B ∈ knowledge ai →
                 Sentence.cells A ⊆ Sentence.cells B →
                 Sentence.cells B ⊆ Sentence.cells A) as Hno.
  { intros A' B' HA HB. simpl in HA, HB.
    apply elem_of_cons in HA as [->|HA]; [|apply list_elem_of_singleton in HA as ->];
      (apply elem_of_cons in HB as [->|HB]; [|apply list_elem_of_singleton in HB as ->]);
      intros Hsub; first [exact Hsub|exfalso; revert Hsub; by_evaluation]. }
  split; [exact Hno|]. exact (no_strict_subset_no_inference ai Hno).
Defined.

End PlaySpec.

(** * The first call of [add_knowledge] on a fresh engine *)
Module FirstReveal.
Import MinesweeperAI Notions MoreNotions CleanFacts MarkFacts InferFacts
       NeighborFacts CellFacts.

Lemma filter_all {A : Type} (P : A → Prop) `{!∀ x, Decision (P x)} (l : list A) :
  Forall P l → filter P l = l.
Proof.
  induction 1 as [|x l Hx Hl IH]; [done|].
  by rewrite filter_cons_True, IH.
Qed.

Lemma filter_none {A : Type} (P : A → Prop) `{!∀ x, Decision (P x)} (l : list A) :
  Forall (λ x, ¬ P x) l → filter P l = [].
Proof.
  induction 1 as [|x l Hx Hl IH]; [done|].
  by rewrite filter_cons_False.
Qed.

Lemma reveal_fresh (h w : Z) (cell : Cell) :
  mark_safe cell (set_moves_made (moves_made (init h w) ∪ {[cell]}) (init h w))
  = revealed h w cell.
Proof.
  unfold mark_safe, set_moves_made, set_knowledge, revealed, init. simpl.
  by rewrite union_empty_l_L.
Qed.

Lemma neighbors_revealed (h w : Z) (cell : Cell) :
  neighbors (revealed h w cell) cell = neighbors (init h w) cell.
Proof. reflexivity. Qed.

Lemma cell_not_neighbor (ai : AI) (cell : Cell) : cell ∉ neighbors ai cell.
Proof. intros Hin. by apply elem_of_neighbors in Hin as [Hne _]. Qed.

(** The new sentence of the first call: all neighbours, with the count as
    given. *)
Lemma first_sentence (h w : Z) (cell : Cell) (count : Z) :
  add_new_sentence cell count (revealed h w cell)
  = if decide (neighbors (init h w) cell ≠ [])
    then set_knowledge [Sentence.init (neighbors (init h w) cell) count]
                       (revealed h w cell)
    else revealed h w cell.
Proof.
  unfold add_new_sentence. rewrite filter_neighbors_eq, neighbors_revealed.
  cbn [fst snd app].
  rewrite (filter_none (λ c, c ∈ mines (revealed h w cell))).
  2:{ apply Forall_forall. intros c _. simpl. set_solver. }
  rewrite (filter_all (open_cell (revealed h w cell))).
  2:{ apply Forall_forall. intros c Hc. unfold open_cell. simpl.
      assert (c ≠ cell) by (intros ->; by apply cell_not_neighbor in Hc).
      set_solver. }
  simpl. by rewrite Z.sub_0_r.
Qed.

Lemma mark_and_clean_no_sentence (ai : AI) :
  knowledge ai = [] → mark_and_clean ai = Some ai.
Proof.
  intros Hk. unfold mark_and_clean.
  assert (mark_mines_safes ai = ai) as ->.
  { unfold mark_mines_safes. by rewrite Hk. }
  rewrite clean_empty_sentences_eq. simpl. rewrite Hk.
  destruct ai as [h w mv ms ss kb]. simpl in Hk. by subst.
Qed.

Lemma add_inferred_no_sentence (ai : AI) :
  knowledge ai = [] → add_inferred ai = ai.
Proof.
  intros Hk. unfold add_inferred, infer_subsets. rewrite Hk. simpl.
  destruct ai as [h w mv ms ss kb]. simpl in Hk. by subst.
Qed.

(** What is left of [add_knowledge] once the first saturation has emptied
    the knowledge base. *)
Lemma finish_no_sentence (a : AI) :
  knowledge a = [] →
  (a' ← mark_and_clean (add_inferred a); clean_exceuted_safes a')
  = Some (set_safes (safes a ∖ moves_made a) a).
Proof.
  intros Hk. rewrite add_inferred_no_sentence by done.
  rewrite mark_and_clean_no_sentence by done. simpl.
  apply clean_exceuted_safes_eq.
Qed.

Section first.
Variables (h w : Z) (cell : Cell).

Local Abbreviation nb := (neighbors (init h w) cell).

Lemma size_neighbors : size (list_to_set nb : gset Cell) = length nb.
Proof. apply size_list_to_set, NoDup_neighbors. Qed.

Lemma neighbors_unmoved :
  unmoved (revealed h w cell) (elements (list_to_set nb : gset Cell))
  = elements (list_to_set nb : gset Cell).
Proof.
  unfold unmoved. apply filter_all, Forall_forall. intros c Hc. simpl.
  apply elem_of_elements, elem_of_list_to_set in Hc.
  assert (c ≠ cell) by (intros ->; by apply cell_not_neighbor in Hc).
  set_solver.
Qed.

Lemma mark_first (count : Z) :
  mark_mines_safes (set_knowledge [Sentence.init nb count] (revealed h w cell))
  = mark_mines_safes_at
      (set_knowledge [Sentence.init nb count] (revealed h w cell)) 0.
Proof. reflexivity. Qed.

Lemma saturate_zero :
  nb ≠ [] →
  mark_and_clean (set_knowledge [Sentence.init nb 0] (revealed h w cell))
  = Some (set_safes (list_to_set nb) (revealed h w cell)).
Proof.
  intros Hnb. assert (length nb ≠ 0%nat) as Hlen by (by destruct nb).
  unfold mark_and_clean. rewrite mark_first. unfold mark_mines_safes_at.
  cbn [knowledge set_knowledge lookup list_lookup].
  unfold Sentence.known_mines, Sentence.known_safes, Sentence.len.
  cbn [Sentence.cells Sentence.count Sentence.init].
  rewrite size_neighbors.
  rewrite (decide_False (P := Z.of_nat (length nb) = 0)) by lia.
  rewrite (decide_False (P := size (∅ : gset Cell) ≠ 0%nat))
    by (rewrite size_empty; intros Hn; by apply Hn).
  rewrite (decide_True (P := 0 = 0)) by done.
  rewrite decide_True by (by rewrite size_neighbors).
  rewrite mark_cells_safe_eq. cbn [knowledge set_knowledge].
  change (unmoved _ (elements (list_to_set nb)))
    with (unmoved (revealed h w cell) (elements (list_to_set nb : gset Cell))).
  rewrite neighbors_unmoved, list_to_set_elements_L.
  rewrite clean_empty_sentences_eq. cbn [knowledge fmap list_fmap].
  rewrite mark_safes_eq, list_to_set_elements_L.
  cbn [Sentence.cells Sentence.count Sentence.init].
  rewrite filter_cons_False, filter_nil.
  2:{ unfold nonempty. cbn [Sentence.cells]. intros Hn. apply Hn.
      apply difference_diag_L. }
  unfold clean_identical_sentences, set_knowledge, set_safes, revealed. simpl.
  by rewrite union_empty_l_L.
Qed.

Lemma saturate_full :
  nb ≠ [] →
  mark_and_clean
    (set_knowledge [Sentence.init nb (Z.of_nat (length nb))] (revealed h w cell))
  = Some (set_mines (list_to_set nb) (revealed h w cell)).
Proof.
  intros Hnb. assert (length nb ≠ 0%nat) as Hlen by (by destruct nb).
  unfold mark_and_clean. rewrite mark_first. unfold mark_mines_safes_at.
  cbn [knowledge set_knowledge lookup list_lookup].
  unfold Sentence.known_mines, Sentence.known_safes, Sentence.len.
  cbn [Sentence.cells Sentence.count Sentence.init].
  rewrite size_neighbors.
  rewrite (decide_True (P := Z.of_nat (length nb) = Z.of_nat (length nb))) by done.
  rewrite (decide_False (P := Z.of_nat (length nb) = 0)) by lia.
  rewrite (decide_False (P := size (∅ : gset Cell) ≠ 0%nat))
    by (rewrite size_empty; intros Hn; by apply Hn).
  rewrite decide_True by (by rewrite size_neighbors).
  rewrite mark_cells_mine_eq. cbn [knowledge set_knowledge].
  rewrite list_to_set_elements_L.
  rewrite clean_empty_sentences_eq. cbn [knowledge fmap list_fmap].
  rewrite mark_mines_eq, list_to_set_elements_L.
  cbn [Sentence.cells Sentence.count Sentence.init].
  rewrite filter_cons_False, filter_nil.
  2:{ unfold nonempty. cbn [Sentence.cells]. intros Hn. apply Hn.
      apply difference_diag_L. }
  unfold clean_identical_sentences, set_knowledge, set_mines, revealed. simpl.
  by rewrite union_empty_l_L.
Qed.

Lemma saturate_other (count : Z) :
  nb ≠ [] → count ≠ 0 → count ≠ Z.of_nat (length nb) →
  mark_and_clean (set_knowledge [Sentence.init nb count] (revealed h w cell))
  = Some (set_knowledge [Sentence.init nb count] (revealed h w cell)).
Proof.
  intros Hnb Hz Hfull. assert (length nb ≠ 0%nat) as Hlen by (by destruct nb).
  unfold mark_and_clean. rewrite mark_first. unfold mark_mines_safes_at.
  cbn [knowledge set_knowledge lookup list_lookup].
  unfold Sentence.known_mines, Sentence.known_safes, Sentence.len.
  cbn [Sentence.cells Sentence.count Sentence.init].
  rewrite size_neighbors.
  rewrite (decide_False (P := Z.of_nat (length nb) = count)) by lia.
  rewrite (decide_False (P := count = 0)) by done.
  rewrite !(decide_False (P := size (∅ : gset Cell) ≠ 0%nat))
    by (rewrite size_empty; intros Hn; by apply Hn).
  rewrite clean_empty_sentences_eq. cbn [knowledge set_knowledge].
  rewrite filter_cons_True, filter_nil.
  2:{ unfold nonempty. cbn [Sentence.cells Sentence.init]. intros He.
      pose proof size_neighbors as Hsz. rewrite He, size_empty in Hsz. lia. }
  reflexivity.
Qed.

End first.

Lemma neighbors_without_cell (h w : Z) (cell : Cell) :
  (list_to_set (neighbors (init h w) cell) : gset Cell) ∖ {[cell]}
  = list_to_set (neighbors (init h w) cell).
Proof.
  apply set_eq. intros c. rewrite elem_of_difference, elem_of_list_to_set.
  split; [by intros [? _]|]. intros Hc. split; [done|].
  intros ->%elem_of_singleton. by apply cell_not_neighbor in Hc.
Qed.

Lemma no_inference_single (a : AI) (s : Sentence) :
  knowledge a = [s] → add_inferred a = a.
Proof.
  intros Hk. unfold add_inferred. rewrite infer_subsets_eq, Hk. simpl.
  assert (queued a s s = []) as ->.
  { unfold queued, derived. rewrite decide_True by done.
    rewrite decide_False; [done|]. intros Hne. apply Hne.
    apply set_eq. intros c. rewrite !elem_of_difference.
    split; [tauto|]. by intros ?%not_elem_of_empty. }
  simpl. destruct a as [h w mv ms ss kb]. simpl in Hk. by subst.
Qed.

(** X22: the first call on a fresh engine with count 0 returns with the
    cell as the only move made, all its neighbours known safe, no known mine
    and an empty knowledge base. *)
Theorem first_reveal_zero (h w : Z) (cell : Cell) :
  add_knowledge cell 0 (init h w)
  = Some {| height := h; width := w; moves_made := {[cell]}; mines := ∅;
            safes := list_to_set (neighbors (init h w) cell);
            knowledge := [] |}.
Proof.
  unfold add_knowledge, before_inference.
  rewrite reveal_fresh, first_sentence. case_decide as Hnb.
  - rewrite saturate_zero by done. cbn [mbind option_bind].
    rewrite finish_no_sentence by done.
    unfold set_safes, revealed. cbn [safes moves_made height width mines knowledge].
    by rewrite neighbors_without_cell.
  - assert (neighbors (init h w) cell = []) as ->.
    { destruct (neighbors (init h w) cell); [done|]. by destruct Hnb. }
    rewrite mark_and_clean_no_sentence by done. cbn [mbind option_bind].
    rewrite finish_no_sentence by done.
    unfold set_safes, revealed. cbn [safes moves_made height width mines knowledge].
    by rewrite difference_disjoint_L by set_solver.
Qed.

(** X23: the first call on a fresh engine with the count equal to the
    number of neighbours, at least one, returns with all neighbours known
    mines, no known safe and an empty knowledge base, and [make_safe_move]
    then has no cell to return. *)
Theorem first_reveal_full (h w : Z) (cell : Cell) :
  neighbors (init h w) cell ≠ [] →
  ∃ ai, add_knowledge cell (Z.of_nat (length (neighbors (init h w) cell)))
                      (init h w) = Some ai
        ∧ ai = {| height := h; width := w; moves_made := {[cell]};
                  mines := list_to_set (neighbors (init h w) cell);
                  safes := ∅; knowledge := [] |}
        ∧ make_safe_move ai = None.
Proof.
  intros Hnb. eexists. split; [|split; [reflexivity|]].
  - unfold add_knowledge, before_inference.
    rewrite reveal_fresh, first_sentence, decide_True by done.
    rewrite saturate_full by done. cbn [mbind option_bind].
    rewrite finish_no_sentence by done.
    unfold set_safes, set_mines, revealed.
    cbn [safes moves_made height width mines knowledge].
    by rewrite difference_disjoint_L by set_solver.
  - unfold make_safe_move. cbn [safes]. by rewrite elements_empty.
Qed.

Lemma first_reveal_full_witness :
  neighbors (init 3 3) (0, 0) ≠ []
  ∧ ∃ ai, add_knowledge (0, 0) (Z.of_nat (length (neighbors (init 3 3) (0, 0))))
                        (init 3 3) = Some ai
          ∧ ai = {| height := 3; width := 3; moves_made := {[(0, 0)]};
                    mines := list_to_set (neighbors (init 3 3) (0, 0));
                    safes := ∅; knowledge := [] |}
          ∧ make_safe_move ai = None.
Proof.
  assert (neighbors (init 3 3) (0, 0) ≠ []) as Hnb by (by vm_compute).
  split; [exact Hnb|]. exact (first_reveal_full 3 3 (0, 0) Hnb).
Defined.

(** X24: the first call on a fresh engine for a cell with neighbours, with a
    count that is neither 0 nor the number of neighbours, returns with the
    one sentence "so many of the neighbours are mines" and marks nothing. *)
Theorem first_reveal_other (h w : Z) (cell : Cell) (count : Z) :
  neighbors (init h w) cell ≠ [] →
  count ≠ 0 → count ≠ Z.of_nat (length (neighbors (init h w) cell)) →
  add_knowledge cell count (init h w)
  = Some {| height := h; width := w; moves_made := {[cell]}; mines := ∅;
            safes := ∅;
            knowledge := [Sentence.init (neighbors (init h w) cell) count] |}.
Proof.
  intros Hnb Hz Hfull. unfold add_knowledge, before_inference.
  rewrite reveal_fresh, first_sentence, decide_True by done.
  rewrite saturate_other by done. cbn [mbind option_bind].
  rewrite (no_inference_single _ (Sentence.init (neighbors (init h w) cell) count))
    by done.
  rewrite saturate_other by done. cbn [mbind option_bind].
  rewrite clean_exceuted_safes_eq.
  unfold set_safes, set_knowledge, revealed.
  cbn [safes moves_made height width mines knowledge].
  by rewrite difference_disjoint_L by set_solver.
Qed.

Lemma first_reveal_other_witness :
  neighbors (init 3 3) (1, 1) ≠ []
  ∧ 2 ≠ 0 ∧ 2 ≠ Z.of_nat (length (neighbors (init 3 3) (1, 1)))
  ∧ add_knowledge (1, 1) 2 (init 3 3)
    = Some {| height := 3; width := 3; moves_made := {[(1, 1)]}; mines := ∅;
              safes := ∅;
              knowledge := [Sentence.init (neighbors (init 3 3) (1, 1)) 2] |}.
Proof.
  assert (neighbors (init 3 3) (1, 1) ≠ []) as Hnb by (by vm_compute).
  assert (2 ≠ 0) as Hz by lia.
  assert (2 ≠ Z.of_nat (length (neighbors (init 3 3) (1, 1)))) as Hfull
    by (by vm_compute).
  split_and!; [exact Hnb|exact Hz|exact Hfull|].
  exact (first_reveal_other 3 3 (1, 1) 2 Hnb Hz Hfull).
Defined.

End FirstReveal.

(** * The board the constructor builds *)
Module GameSpec.
Import Notions MoreNotions.

Lemma getitem_in_range {A : Type} (l : list A) (i : Z) :
  0 ≤ i < Z.of_nat (length l) → Game.getitem l i = l !! Z.to_nat i.
Proof.
  intros Hi. unfold Game.getitem, Game.py_index. by rewrite decide_True.
Qed.

Lemma setitem_in_range {A : Type} (l : list A) (i : Z) (x : A) :
  0 ≤ i < Z.of_nat (length l) →
  Game.setitem l i x = Some (<[Z.to_nat i := x]> l).
Proof.
  intros Hi. unfold Game.setitem, Game.py_index. by rewrite decide_True.
Qed.

Lemma getcell_rows (h w : Z) (b : list (list bool)) (c : Cell) :
  length b = Z.to_nat h → Forall (λ row, length row = Z.to_nat w) b →
  0 ≤ c.1 < h → 0 ≤ c.2 < w →
  ∃ row, b !! Z.to_nat c.1 = Some row ∧ length row = Z.to_nat w
         ∧ Game.getcell b c = row !! Z.to_nat c.2.
Proof.
  intros Hlen Hrows Hi Hj.
  destruct (lookup_lt_is_Some_2 b (Z.to_nat c.1)) as [row Hrow]; [lia|].
  pose proof (Forall_lookup_1 _ _ _ _ Hrows Hrow) as Hw. simpl in Hw.
  exists row. split_and!; [done|done|].
  unfold Game.getcell. rewrite getitem_in_range by lia. rewrite Hrow. simpl.
  apply getitem_in_range. lia.
Qed.

Lemma board_of_empty (h w : Z) : board_of h w (Game.empty_board h w) ∅.
Proof.
  unfold board_of, Game.empty_board. split_and!.
  - apply length_replicate.
  - apply Forall_replicate, length_replicate.
  - intros c Hc. by apply not_elem_of_empty in Hc.
  - intros c Hi Hj.
    destruct (getcell_rows h w (replicate (Z.to_nat h) (replicate (Z.to_nat w) false)) c)
      as (row & Hrow & _ & ->); try done.
    + apply length_replicate.
    + apply Forall_replicate, length_replicate.
    + apply lookup_replicate in Hrow as [-> _].
      rewrite lookup_replicate_2 by lia.
      by rewrite bool_decide_eq_false_2 by apply not_elem_of_empty.
Qed.

(** One turn of the loop on a well-formed board: no [IndexError]; the cell
    drawn becomes a mine if it was none, and nothing else changes. *)
Lemma place_mine_board_of (h w : Z) (b : list (list bool)) (m : gset Cell)
    (ij : Cell) :
  board_of h w b m → 0 ≤ ij.1 < h → 0 ≤ ij.2 < w →
  ∃ b', Game.place_mine (b, m) ij = Some (b', m ∪ {[ij]})
        ∧ board_of h w b' (m ∪ {[ij]}).
Proof.
  intros (Hlen & Hrows & Hin & Hget) Hi Hj.
  unfold Game.place_mine. cbn [fst snd]. rewrite (Hget ij Hi Hj). simpl.
  case_bool_decide as Hm.
  - exists b. assert (m ∪ {[ij]} = m) as -> by set_solver.
    split; [done|]. by split_and!.
  - destruct (getcell_rows h w b ij Hlen Hrows Hi Hj) as (row & Hrow & Hw & _).
    unfold Game.setcell. rewrite getitem_in_range by lia. rewrite Hrow. simpl.
    rewrite setitem_in_range by lia. simpl. rewrite setitem_in_range by lia.
    eexists. split; [done|].
    set (row' := <[Z.to_nat ij.2 := true]> row).
    assert (length row' = Z.to_nat w) as Hw' by (unfold row'; by rewrite length_insert).
    split_and!.
    + by rewrite length_insert.
    + by apply Forall_insert.
    + intros c [Hc| ->%elem_of_singleton]%elem_of_union; [by apply Hin|done].
    + intros c Hci Hcj.
      assert (length (<[Z.to_nat ij.1 := row']> b) = Z.to_nat h) as Hlen'
        by (by rewrite length_insert).
      assert (Forall (λ r, length r = Z.to_nat w) (<[Z.to_nat ij.1 := row']> b))
        as Hrows' by (by apply Forall_insert).
      destruct (getcell_rows h w _ c Hlen' Hrows' Hci Hcj) as (r & Hr & _ & ->).
      rewrite list_lookup_insert in Hr.
      destruct (decide (Z.to_nat ij.1 = Z.to_nat c.1 ∧ (Z.to_nat ij.1 < length b)%nat))
        as [[Heq _]|Hne].
      * injection Hr as <-. unfold row'. rewrite list_lookup_insert.
        destruct (decide (Z.to_nat ij.2 = Z.to_nat c.2
                          ∧ (Z.to_nat ij.2 < length row)%nat)) as [[Heq2 _]|Hne2].
        -- assert (c = ij) as -> by (destruct c, ij; simpl in *; f_equal; lia).
           symmetry. f_equal. apply bool_decide_eq_true. set_solver.
        -- assert (c ≠ ij) as Hc by (intros ->; apply Hne2; lia).
           destruct (getcell_rows h w b c Hlen Hrows Hci Hcj) as (r & Hr & _ & Hg).
           assert (r = row) as -> by (rewrite <- Heq in Hr; congruence).
           rewrite <- Hg, (Hget c Hci Hcj). f_equal.
           apply bool_decide_ext. set_solver.
      * assert (c ≠ ij) as Hc by (intros ->; apply Hne; lia).
        destruct (getcell_rows h w b c Hlen Hrows Hci Hcj) as (r0 & Hr0 & _ & Hg).
        assert (r = r0) as -> by congruence.
        rewrite <- Hg, (Hget c Hci Hcj). f_equal.
        apply bool_decide_ext. set_solver.
Qed.

Lemma place_mines_board_of (h w target : Z) (ds : list Cell)
    (b : list (list bool)) (m : gset Cell) :
  drawable h w ds → board_of h w b m →
  match Game.place_mines h w target ds (b, m) with
  | Game.Returned st =>
      board_of h w st.1 st.2 ∧ Z.of_nat (size st.2) = target ∧ m ⊆ st.2
  | Game.Raised => ¬ (0 < h ∧ 0 < w) ∧ Z.of_nat (size m) ≠ target
  | Game.Looping => 0 < h ∧ 0 < w
  end.
Proof.
  intros Hds. revert b m. induction Hds as [|ij ds [Hi Hj] Hds IH]; intros b m Hb.
  - cbn [Game.place_mines snd]. case_decide as Hsz; [done|].
    by case_decide.
  - cbn [Game.place_mines snd]. case_decide as Hsz; [done|].
    rewrite decide_True by lia.
    destruct (place_mine_board_of h w b m ij Hb Hi Hj) as (b' & -> & Hb').
    specialize (IH b' _ Hb').
    destruct (Game.place_mines h w target ds (b', m ∪ {[ij]})) as [st| |].
    + destruct IH as (? & ? & ?). split_and!; try done. set_solver.
    + destruct IH as [Hno _]. exfalso. apply Hno. lia.
    + done.
Qed.

Lemma init_board_of (h w target : Z) (ds : list Cell) :
  drawable h w ds →
  match Game.init h w target ds with
  | Game.Returned g =>
      Game.height g = h ∧ Game.width g = w ∧ Game.mines_found g = ∅
      ∧ Z.of_nat (size (Game.mines g)) = target
      ∧ board_of h w (Game.board g) (Game.mines g)
  | Game.Raised => ¬ (0 < h ∧ 0 < w) ∧ target ≠ 0
  | Game.Looping => 0 < h ∧ 0 < w
  end.
Proof.
  intros Hds. unfold Game.init.
  pose proof (place_mines_board_of h w target ds _ _ Hds (board_of_empty h w)) as H.
  destruct (Game.place_mines h w target ds (Game.empty_board h w, ∅)) as [st| |].
  - destruct H as (Hb & Hsz & _). by split_and!.
  - destruct H as [Hno Hsz]. split; [done|].
    rewrite size_empty in Hsz. lia.
  - done.
Qed.

(** On a board without cells the first turn of the loop raises. *)
Lemma init_raises_on_empty_board (h w target : Z) (ds : list Cell) :
  target ≠ 0 → h ≤ 0 ∨ w ≤ 0 → Game.init h w target ds = Game.Raised.
Proof.
  intros Ht Hhw. unfold Game.init.
  assert (Game.place_mines h w target ds (Game.empty_board h w, ∅) = Game.Raised)
    as ->; [|done].
  destruct ds as [|ij ds]; cbn [Game.place_mines snd];
    (rewrite decide_False by (rewrite size_empty; lia));
    by rewrite decide_False by lia.
Qed.

(** X25: fed with pairs that [randrange] can draw, the constructor raises
    exactly when mines are asked for, a number other than 0, on a board
    whose height or width is not positive; when it returns, the game has the
    given height and width, exactly the requested number of mines, all
    inside the board, no mine found yet, a board of [height] rows of [width]
    entries, and [is_mine] of a cell inside the board tells whether the cell
    is in [mines]. *)
Theorem game_init_spec (h w target : Z) (ds : list Cell) :
  drawable h w ds →
  (Game.init h w target ds = Game.Raised ↔ target ≠ 0 ∧ (h ≤ 0 ∨ w ≤ 0))
  ∧ ∀ g, Game.init h w target ds = Game.Returned g →
         Game.height g = h ∧ Game.width g = w ∧ Game.mines_found g = ∅
         ∧ Z.of_nat (size (Game.mines g)) = target
         ∧ (∀ c, c ∈ Game.mines g → 0 ≤ c.1 < h ∧ 0 ≤ c.2 < w)
         ∧ length (Game.board g) = Z.to_nat h
         ∧ Forall (λ row, length row = Z.to_nat w) (Game.board g)
         ∧ ∀ c, 0 ≤ c.1 < h → 0 ≤ c.2 < w →
                Game.is_mine g c = Some (bool_decide (c ∈ Game.mines g)).
Proof.
  intros Hds. pose proof (init_board_of h w target ds Hds) as H.
  split.
  - split.
    + intros Hr. rewrite Hr in H. destruct H as [Hno Ht]. split; [done|lia].
    + intros [Ht Hhw]. by apply init_raises_on_empty_board.
  - intros g Hg. rewrite Hg in H.
    destruct H as (Hh & Hw & Hf & Hsz & Hlen & Hrows & Hin & Hget).
    by split_and!.
Qed.

Lemma game_init_spec_witness :
  let ds := [(0, 1); (0, 1); (1, 0)] in
  drawable 2 2 ds
  ∧ (Game.init 2 2 2 ds = Game.Raised ↔ 2 ≠ 0 ∧ (2 ≤ 0 ∨ 2 ≤ 0))
  ∧ ∀ g, Game.init 2 2 2 ds = Game.Returned g →
         Game.height g = 2 ∧ Game.width g = 2 ∧ Game.mines_found g = ∅
         ∧ Z.of_nat (size (Game.mines g)) = 2
         ∧ (∀ c, c ∈ Game.mines g → 0 ≤ c.1 < 2 ∧ 0 ≤ c.2 < 2)
         ∧ length (Game.board g) = Z.to_nat 2
         ∧ Forall (λ row, length row = Z.to_nat 2) (Game.board g)
         ∧ ∀ c, 0 ≤ c.1 < 2 → 0 ≤ c.2 < 2 →
                Game.is_mine g c = Some (bool_decide (c ∈ Game.mines g)).
Proof.
  intros ds.
  assert (drawable 2 2 ds) as Hds by (repeat constructor; simpl; lia).
  split; [exact Hds|]. exact (game_init_spec 2 2 2 ds Hds).
Defined.

Lemma nearby_loop_board (h w : Z) (g : Game.t) (cell : Cell)
    (l : list Cell) (n : Z) :
  Game.height g = h → Game.width g = w →
  board_of h w (Game.board g) (Game.mines g) →
  fold_left (Game.nearby_step g cell) l (Some n)
  = Some (fold_left
            (Minesweeper.nearby_step (Minesweeper.Build h w (Game.mines g)) cell)
            l n).
Proof.
  intros Hh Hw (_ & _ & _ & Hget). revert n.
  induction l as [|ij l IH]; intros n; [done|].
  cbn [fold_left].
  assert (Game.nearby_step g cell (Some n) ij
          = Some (Minesweeper.nearby_step
                    (Minesweeper.Build h w (Game.mines g)) cell n ij)) as ->.
  { unfold Game.nearby_step, Minesweeper.nearby_step, Minesweeper.board.
    cbn [mbind option_bind Minesweeper.height Minesweeper.width Minesweeper.mines].
    rewrite Hh, Hw. case_decide; [done|]. case_decide as Hb; [|done].
    destruct Hb as [Hi Hj]. rewrite (Hget ij Hi Hj). done. }
  apply IH.
Qed.

(** X26: on a game the constructor returned, [nearby_mines], which reads the
    board entries, never raises and counts the neighbouring cells inside
    the board that are in [mines]: it agrees with the count read off the
    set of mines. *)
Theorem game_nearby_mines_spec (h w target : Z) (ds : list Cell) (g : Game.t)
    (cell : Cell) :
  drawable h w ds → Game.init h w target ds = Game.Returned g →
  Game.nearby_mines g cell
  = Some (Minesweeper.nearby_mines (Minesweeper.Build h w (Game.mines g)) cell).
Proof.
  intros Hds Hg. pose proof (init_board_of h w target ds Hds) as H.
  rewrite Hg in H. destruct H as (Hh & Hw & _ & _ & Hb).
  unfold Game.nearby_mines, Minesweeper.nearby_mines.
  by apply nearby_loop_board.
Qed.

Lemma game_nearby_mines_spec_witness :
  let ds := [(0, 1); (0, 1); (1, 0)] in
  let g := {| Game.height := 2; Game.width := 2;
              Game.mines := {[(0, 1); (1, 0)]};
              Game.board := [[false; true]; [true; false]];
              Game.mines_found := ∅ |} in
  drawable 2 2 ds ∧ Game.init 2 2 2 ds = Game.Returned g
  ∧ Game.nearby_mines g (0, 0)
    = Some (Minesweeper.nearby_mines (Minesweeper.Build 2 2 (Game.mines g)) (0, 0)).
Proof.
  intros ds g.
  assert (drawable 2 2 ds) as Hds by (repeat constructor; simpl; lia).
  assert (Game.init 2 2 2 ds = Game.Returned g) as Hg by (by vm_compute).
  split_and!; [exact Hds|exact Hg|].
  exact (game_nearby_mines_spec 2 2 2 ds g (0, 0) Hds Hg).
Defined.

Lemma elem_of_all_cells (h w : Z) (c : Cell) :
  c ∈ all_cells h w ↔ 0 ≤ c.1 < h ∧ 0 ≤ c.2 < w.
Proof.
  unfold all_cells. rewrite list_elem_of_bind. split.
  - intros (i & Hc & Hi). apply list_elem_of_bind in Hc as (j & Hc & Hj).
    apply list_elem_of_singleton in Hc as ->.
    apply MoveFacts.elem_of_range in Hi, Hj. done.
  - intros [Hi Hj]. exists c.1. split; [|by apply MoveFacts.elem_of_range].
    apply list_elem_of_bind. exists c.2.
    split; [|by apply MoveFacts.elem_of_range]. destruct c. by left.
Qed.

Lemma length_all_cells (h w : Z) :
  length (all_cells h w) = (Z.to_nat h * Z.to_nat w)%nat.
Proof.
  unfold all_cells.
  assert (∀ (i : Z) (l : list Z),
            length (l ≫= (λ j, [(i, j)])) = length l) as Hrow.
  { intros i l. induction l as [|j l IH]; [done|].
    rewrite bind_cons, length_app, IH. done. }
  assert (∀ l : list Z,
            length (l ≫= (λ i, MinesweeperAI.range w ≫= (λ j, [(i, j)])))
            = (length l * Z.to_nat w)%nat) as Hall.
  { induction l as [|i l IH]; [done|].
    rewrite bind_cons, length_app, IH, Hrow.
    unfold MinesweeperAI.range at 1. rewrite length_fmap, length_seq. simpl. lia. }
  rewrite Hall. unfold MinesweeperAI.range. by rewrite length_fmap, length_seq.
Qed.

Lemma size_list_to_set_le (l : list Cell) :
  (size (list_to_set l : gset Cell) ≤ length l)%nat.
Proof.
  induction l as [|c l IH].
  - by rewrite list_to_set_nil, size_empty.
  - rewrite list_to_set_cons, size_union_alt, size_singleton.
    assert ((list_to_set l : gset Cell) ∖ {[c]} ⊆ list_to_set l) as Hsub
      by set_solver.
    apply subseteq_size in Hsub. cbn [length]. lia.
Qed.

Lemma board_of_size (h w : Z) (b : list (list bool)) (m : gset Cell) :
  board_of h w b m → Z.of_nat (size m) ≤ Z.max 0 h * Z.max 0 w.
Proof.
  intros (_ & _ & Hin & _).
  assert (m ⊆ list_to_set (all_cells h w)) as Hsub.
  { intros c Hc. apply elem_of_list_to_set, elem_of_all_cells. by apply Hin. }
  apply subseteq_size in Hsub.
  pose proof (size_list_to_set_le (all_cells h w)) as Hle.
  rewrite length_all_cells in Hle.
  assert (Z.of_nat (Z.to_nat h * Z.to_nat w) = Z.max 0 h * Z.max 0 w) as <-
    by (rewrite Nat2Z.inj_mul; f_equal; lia).
  lia.
Qed.

(** X27: the constructor cannot return when asked for a negative number of
    mines or for more mines than the board has cells.  On a board with
    positive height and width its loop goes on, whatever [randrange] draws;
    on a board whose height or width is not positive it raises. *)
Theorem game_init_never_returns (h w target : Z) (ds : list Cell) :
  drawable h w ds →
  target < 0 ∨ Z.max 0 h * Z.max 0 w < target →
  Game.init h w target ds
  = if decide (0 < h ∧ 0 < w) then Game.Looping else Game.Raised.
Proof.
  intros Hds Hbad. pose proof (init_board_of h w target ds Hds) as H.
  destruct (Game.init h w target ds) as [g| |].
  - destruct H as (_ & _ & _ & Hsz & Hb). apply board_of_size in Hb. lia.
  - destruct H as [Hno _]. by rewrite decide_False.
  - by rewrite decide_True.
Qed.

Lemma game_init_never_returns_witness :
  let ds := [(0, 0); (0, 1); (1, 0); (1, 1); (0, 0)] in
  drawable 2 2 ds
  ∧ (5 < 0 ∨ Z.max 0 2 * Z.max 0 2 < 5)
  ∧ Game.init 2 2 5 ds
    = if decide (0 < 2 ∧ 0 < 2) then Game.Looping else Game.Raised.
Proof.
  intros ds.
  assert (drawable 2 2 ds) as Hds by (repeat constructor; simpl; lia).
  assert (5 < 0 ∨ Z.max 0 2 * Z.max 0 2 < 5) as Hbad by (right; lia).
  split_and!; [exact Hds|exact Hbad|].
  exact (game_init_never_returns 2 2 5 ds Hds Hbad).
Defined.

Lemma py_index_spec (len : nat) (i : Z) :
  Game.py_index len i
  = if decide (- Z.of_nat len ≤ i < Z.of_nat len)
    then Some (Z.to_nat (i `mod` Z.of_nat len)) else None.
Proof.
  unfold Game.py_index.
  destruct (decide (0 ≤ i < Z.of_nat len)) as [Hi|Hi].
  - rewrite decide_True by lia. by rewrite Z.mod_small.
  - destruct (decide (- Z.of_nat len ≤ i < 0)) as [Hn|Hn].
    + rewrite decide_True by lia. do 2 f_equal.
      apply (Z.mod_unique _ _ (-1)); lia.
    + by rewrite decide_False by lia.
Qed.

Lemma getitem_spec {A : Type} (l : list A) (i : Z) :
  Game.getitem l i
  = if decide (- Z.of_nat (length l) ≤ i < Z.of_nat (length l))
    then l !! Z.to_nat (i `mod` Z.of_nat (length l)) else None.
Proof.
  unfold Game.getitem. rewrite py_index_spec. by case_decide.
Qed.

Lemma getcell_wrap (h w : Z) (b : list (list bool)) (c : Cell) :
  length b = Z.to_nat h → Forall (λ row, length row = Z.to_nat w) b →
  Game.getcell b c
  = if decide (- h ≤ c.1 < h ∧ - w ≤ c.2 < w)
    then Game.getcell b (c.1 `mod` h, c.2 `mod` w) else None.
Proof.
  intros Hlen Hrows. unfold Game.getcell at 1.
  rewrite (getitem_spec b), Hlen.
  destruct (decide (- Z.of_nat (Z.to_nat h) ≤ c.1 < Z.of_nat (Z.to_nat h)))
    as [Hi|Hi]; simpl.
  - assert (0 < h) as Hh by lia. rewrite Z2Nat.id by lia.
    pose proof (Z.mod_pos_bound c.1 h Hh) as Hmi.
    destruct (lookup_lt_is_Some_2 b (Z.to_nat (c.1 `mod` h))) as [row Hrow]; [lia|].
    pose proof (Forall_lookup_1 _ _ _ _ Hrows Hrow) as Hw. simpl in Hw.
    rewrite Hrow. simpl. rewrite (getitem_spec row), Hw.
    destruct (decide (- Z.of_nat (Z.to_nat w) ≤ c.2 < Z.of_nat (Z.to_nat w)))
      as [Hj|Hj]; simpl.
    + assert (0 < w) as Hw0 by lia. rewrite Z2Nat.id by lia.
      pose proof (Z.mod_pos_bound c.2 w Hw0) as Hmj.
      rewrite decide_True by lia.
      unfold Game.getcell. cbn [fst snd].
      rewrite getitem_in_range by lia. rewrite Hrow. simpl.
      by rewrite getitem_in_range by lia.
    + by rewrite decide_False by lia.
  - by rewrite decide_False by lia.
Qed.

(** X28: on a game the constructor returned, [is_mine] follows Python's
    indexing: for a row in [−height, height) and a column in
    [−width, width) it tells whether the cell with both indices taken modulo
    the size is in [mines], so negative indices wrap around; for any other
    cell it raises. *)
Theorem game_is_mine_spec (h w target : Z) (ds : list Cell) (g : Game.t)
    (c : Cell) :
  drawable h w ds → Game.init h w target ds = Game.Returned g →
  Game.is_mine g c
  = if decide (- h ≤ c.1 < h ∧ - w ≤ c.2 < w)
    then Some (bool_decide ((c.1 `mod` h, c.2 `mod` w) ∈ Game.mines g))
    else None.
Proof.
  intros Hds Hg. pose proof (init_board_of h w target ds Hds) as H.
  rewrite Hg in H. destruct H as (_ & _ & _ & _ & Hlen & Hrows & _ & Hget).
  unfold Game.is_mine. rewrite (getcell_wrap h w) by done.
  case_decide as Hc; [|done]. apply Hget; simpl; apply Z.mod_pos_bound; lia.
Qed.

Lemma game_is_mine_spec_witness :
  let ds := [(0, 1); (0, 1); (1, 0)] in
  let g := {| Game.height := 2; Game.width := 2;
              Game.mines := {[(0, 1); (1, 0)]};
              Game.board := [[false; true]; [true; false]];
              Game.mines_found := ∅ |} in
  drawable 2 2 ds ∧ Game.init 2 2 2 ds = Game.Returned g
  ∧ Game.is_mine g (-1, 0)
    = if decide (- 2 ≤ (-1, 0).1 < 2 ∧ - 2 ≤ (-1, 0).2 < 2)
      then Some (bool_decide (((-1, 0).1 `mod` 2, (-1, 0).2 `mod` 2) ∈ Game.mines g))
      else None.
Proof.
  intros ds g.
  assert (drawable 2 2 ds) as Hds by (repeat constructor; simpl; lia).
  assert (Game.init 2 2 2 ds = Game.Returned g) as Hg by (by vm_compute).
  split_and!; [exact Hds|exact Hg|].
  exact (game_is_mine_spec 2 2 2 ds g (-1, 0) Hds Hg).
Defined.

End GameSpec.
